(** * scanbadblocks: a shallow embedding of the pass engine of
    [src/scanbadblocks.cpp] (class [BlockChecker]).

    Modelling conventions.
    - [size_t] / [uint64_t] values are [Z] with the 64-bit wrap-around
      written out by [wrap]; [uint8_t] values are [Z] in [0, 256).
    - [double] times and rates are modelled over [Q] (exact arithmetic);
      only comparisons and the order of operations of the source are kept.
    - C++ undefined behaviour that the claims care about (dereferencing an
      empty [std::optional], division by zero, an out-of-range vector
      access) is recorded in the model: division by zero aborts
      construction with [DivisionByZero], the other cases set the [ub] flag
      of the state and continue with an arbitrary value.
    - The block device, the file descriptor, the clock and the file system
      of the CSV export are an oracle ([IO]): a device state, the results
      of [open], [read], [write] and the time each call takes, the value of
      [ut1::getTimeSec()] in a device state, and whether the CSV file of a
      pass can be created. *)

From Stdlib Require Import ZArith QArith Lia Lqa List Permutation Sorting String.
From stdpp Require Import base list list_numbers sorting.

Open Scope Z_scope.

(** ** 64-bit words *)

Definition W64 : Z := 2 ^ 64.

(** [size_t] arithmetic: results are taken modulo [2^64]. *)
Definition wrap (z : Z) : Z := z mod W64.

(** ** Construction ([BlockChecker::BlockChecker], lines 29-45) *)

Record Config := mkConfig {
  blockSize : Z;
  sizeBytes : Z;
  numBlocks : Z;
  patterns : list Z
}.

(** Errors that abort the run (thrown [std::runtime_error]s), and the
    division by zero of line 36, which is undefined behaviour in C++. *)
Inductive Error :=
| CannotDetermineSize      (* line 43: "Cannot determine size!" *)
| DeviceOpenError          (* lines 92 and 153 *)
| OutfileOpenError         (* line 259: the CSV file cannot be created *)
| DivisionByZero.          (* line 36 with blockSize == 0 *)

(** Lines 33-44: [numBlocks = (sizeBytes + blockSize - 1) / blockSize] is
    computed (in [size_t]) before the [sizeBytes == 0] check. *)
Definition BlockChecker (blockSize_ sizeBytes_ : Z) (patterns_ : list Z)
  : Error + Config :=
  if blockSize_ =? 0 then inl DivisionByZero
  else
    let numBlocks_ := wrap (sizeBytes_ + blockSize_ - 1) / blockSize_ in
    if sizeBytes_ =? 0 then inl CannotDetermineSize
    else inr (mkConfig blockSize_ sizeBytes_ numBlocks_ patterns_).

(** ** Block geometry (lines 101-105 and 161-165) *)

Definition accessSize (c : Config) (blockIndex : Z) : Z :=
  if sizeBytes c <? wrap ((blockIndex + 1) * blockSize c)
  then sizeBytes c mod blockSize c
  else blockSize c.

(** The access lengths of one pass, block by block. *)
Definition accessSizes (c : Config) : list Z :=
  map (accessSize c) (seqZ 0 (numBlocks c)).

(** Sum of a list of integers. *)
Definition sumZ (l : list Z) : Z := fold_right Z.add 0 l.

(** A value converted to [int] (32 bits, two's complement; the conversion
    is modular since C++20). *)
Definition int32 (z : Z) : Z :=
  let m := z mod 2 ^ 32 in
  if m <? 2 ^ 31 then m else m - 2 ^ 32.

(** ** Pattern generator ([initBlock], lines 293-303) *)

(** [buffer[k] = pattern ^ ((blockIndex >> 8k) & 0xff)], stored into a
    [uint8_t] (hence the final [& 0xff]). *)
Definition patternByte (pattern blockIndex k : Z) : Z :=
  Z.land (Z.lxor pattern (Z.land (Z.shiftr blockIndex (8 * k)) 255)) 255.

(** The eight stores [buffer[0] = ...; ...; buffer[7] = ...]. *)
Definition initBlock (buffer : list Z) (blockIndex pattern : Z) : list Z :=
  foldl (fun b k => <[Z.to_nat k := patternByte pattern blockIndex k]> b)
        buffer (seqZ 0 8).

(** The stores are out of bounds (undefined behaviour) when the buffer
    has fewer than 8 bytes. *)
Definition initBlock_oob (buffer : list Z) : bool :=
  Nat.ltb (length buffer) 8.

(** ** Measurements ([struct BlockStats], lines 314-320) *)

Definition MB : Q := 1048576.

Record BlockStats := mkBlockStats {
  time : Q;
  errors : Z;
  bytes : Z
}.

Definition zeroStats : BlockStats := mkBlockStats 0 0 0.

(** [getRateMB]: [bytes / time / MB] when [time > 0.0], else [0.0]. *)
Definition getRateMB (b : BlockStats) : Q :=
  if Qlt_le_dec 0 (time b) then (inject_Z (bytes b) / time b / MB)%Q else 0%Q.

(** [++errors] on a [size_t] counter. *)
Definition addError (b : BlockStats) : BlockStats :=
  mkBlockStats (time b) (wrap (errors b + 1)) (bytes b).

(** [time += elapsed; bytes += accessSize]. *)
Definition addTransfer (elapsed : Q) (a : Z) (b : BlockStats) : BlockStats :=
  mkBlockStats (time b + elapsed)%Q (errors b) (wrap (bytes b + a)).

(** ** Per-pass statistics ([printPassStats], lines 249-291) *)

(** What one call of [printPassStats] reports: the summary line of line 280
    and the warnings of line 288, as (percent, number of blocks). *)
Record PassReport := mkPassReport {
  rp_read : bool;
  rp_min : Q;
  rp_avg : Q;
  rp_med : Q;
  rp_max : Q;
  rp_errors : Z;
  rp_warnings : list (Z * nat)
}.

(** [std::vector<double> percentiles({50, 20, 10, 5})]. *)
Definition percentiles : list Z := [50; 20; 10; 5].

(** Line 285: [for (; num < numBlocks && blockStats[num].getRateMB() <
    threshold; num++);] *)
Fixpoint countBelow (s : list BlockStats) (threshold : Q) : nat :=
  match s with
  | [] => 0%nat
  | b :: s' => if Qlt_le_dec (getRateMB b) threshold
               then S (countBelow s' threshold) else 0%nat
  end.

(** Lines 270-290 on the sorted records [s] ([numBlocks = length s], as
    [blockStats] was resized to [numBlocks]). Line 274 accumulates in the
    type of its initial value [0], an [int]: each [acc + r.errors] is
    computed in [size_t] and stored back into the [int] accumulator, and
    the final [int] is converted to [size_t]. *)
Definition passStats (read : bool) (sizeBytes_ : Z) (s : list BlockStats)
  : PassReport :=
  let n := length s in
  let min := getRateMB (nth 0 s zeroStats) in
  let max := getRateMB (nth (n - 1)%nat s zeroStats) in
  let med := getRateMB (nth (n / 2)%nat s zeroStats) in
  let totalTime := fold_left (fun acc r => acc + time r)%Q s 0%Q in
  let errs := wrap (fold_left (fun acc r => int32 (wrap (acc + errors r))) s 0) in
  let avg := if Qlt_le_dec 0 totalTime
             then (inject_Z sizeBytes_ / totalTime / MB)%Q else 0%Q in
  let warnings :=
    flat_map (fun percent =>
      let num := countBelow s (med * inject_Z percent / 100)%Q in
      if Nat.eqb num 0 then [] else [(percent, num)]) percentiles in
  mkPassReport read min avg med max errs warnings.

(** Line 269: [std::sort] with comparator [a.getRateMB() < b.getRateMB()].
    The order of records with equal rates is unspecified; the model uses
    stdpp's merge sort, and only the sequence of rates (which is unique)
    matters for the report. *)
Definition rate_le (a b : BlockStats) : Prop :=
  Qle_bool (getRateMB a) (getRateMB b) = true.

#[global] Instance rate_le_dec : RelDecision rate_le.
Proof. intros a b. unfold rate_le. apply _. Defined.

Definition sortByRate (l : list BlockStats) : list BlockStats :=
  merge_sort rate_le l.

(** The report of a pass whose records are [l], in block-index order. *)
Definition passReport (read : bool) (sizeBytes_ : Z) (l : list BlockStats)
  : PassReport :=
  passStats read sizeBytes_ (sortByRate l).

(** [getRateMB() < threshold], as a filter. *)
Definition belowb (threshold : Q) (b : BlockStats) : bool :=
  if Qlt_le_dec (getRateMB b) threshold then true else false.

(** ** Progress line ([printProgress], lines 190-229) *)

(** The head of the line printed at line 203 when [numPasses > 1]:
    the direction and [patterns[passIndex]] ([None] when that index is out
    of range). [None] when the line has no head ([numPasses <= 1]). *)
Definition progressHead (numPasses_ passIndex_ : Z) (patterns_ : list Z)
  : option (string * option Z) :=
  if 1 <? numPasses_ then
    Some (if negb (Z.land passIndex_ 1 =? 0) then "read"%string
          else "write"%string,
          patterns_ !! Z.to_nat passIndex_)
  else None.

(** ** The checker's state (members of [BlockChecker], lines 305-330) *)

(** [readPassesRemaining] and [writePassesRemaining] are only written, and
    are left out; [lastProgressTime], which is set at the start of every
    pass and only used within it, is kept with the locals of the pass loop
    ([Loop] below). *)
Record State := mkState {
  blockStats : list BlockStats;
  totalWrite : BlockStats;
  totalRead : BlockStats;
  passIndex : Z;
  numPasses : Z;
  ub : bool;                  (* some undefined behaviour was executed *)
  reports : list PassReport   (* one per [printPassStats] call *)
}.

Definition initState (c : Config) : State :=
  mkState (repeat zeroStats (Z.to_nat (numBlocks c))) zeroStats zeroStats
          0 0 false [].

Definition setBlockStats (l : list BlockStats) (st : State) : State :=
  mkState l (totalWrite st) (totalRead st) (passIndex st) (numPasses st)
          (ub st) (reports st).
Definition mapBlock (i : Z) (f : BlockStats -> BlockStats) (st : State)
  : State :=
  setBlockStats (alter f (Z.to_nat i) (blockStats st)) st.
Definition mapTotalRead (f : BlockStats -> BlockStats) (st : State) : State :=
  mkState (blockStats st) (totalWrite st) (f (totalRead st)) (passIndex st)
          (numPasses st) (ub st) (reports st).
Definition mapTotalWrite (f : BlockStats -> BlockStats) (st : State) : State :=
  mkState (blockStats st) (f (totalWrite st)) (totalRead st) (passIndex st)
          (numPasses st) (ub st) (reports st).
Definition flagUb (b : bool) (st : State) : State :=
  mkState (blockStats st) (totalWrite st) (totalRead st) (passIndex st)
          (numPasses st) (ub st || b) (reports st).
Definition setNumPasses (n : Z) (st : State) : State :=
  mkState (blockStats st) (totalWrite st) (totalRead st) (passIndex st)
          n (ub st) (reports st).
Definition nextPass (st : State) : State :=
  mkState (blockStats st) (totalWrite st) (totalRead st) (passIndex st + 1)
          (numPasses st) (ub st) (reports st).

(** [printPassStats(read)] after the CSV export (lines 268-290): sorts
    [blockStats] in place and reports. Reading [blockStats[0]] of an empty
    vector is undefined behaviour. The export of lines 253-266, which
    throws when the file cannot be created, is [passEnd] below. *)
Definition printPassStats (c : Config) (read : bool) (st : State) : State :=
  let s := sortByRate (blockStats st) in
  mkState s (totalWrite st) (totalRead st) (passIndex st) (numPasses st)
          (ub st || Nat.eqb (length s) 0)
          (reports st ++ [passStats read (sizeBytes c) s]).

(** Line 203 reads [patterns[passIndex]] when [numPasses > 1]: undefined
    behaviour when that index is out of range. *)
Definition progressPatternOob (c : Config) (st : State) : bool :=
  match progressHead (numPasses st) (passIndex st) (patterns c) with
  | Some (_, None) => true
  | _ => false
  end.

(** [printProgress(blockIndex)] (lines 190-229) at time [now]: nothing when
    less than 0.5 s passed since [lastProgressTime]; otherwise the line is
    printed (only its undefined behaviour changes the state) and
    [lastProgressTime] becomes [now]. *)
Definition printProgress (c : Config) (st : State) (lastProgressTime now : Q)
  : State * Q :=
  if Qlt_le_dec (now - lastProgressTime) (1 # 2) then (st, lastProgressTime)
  else (flagUb (progressPatternOob c st) st, now).

(** ** Dereferencing [std::optional<uint8_t> pattern] ([*pattern]) *)

(** On an empty optional [*pattern] is undefined behaviour; the model flags
    it and goes on with an indeterminate byte (taken as 0). *)
Definition deref (pattern : option Z) : bool * Z :=
  match pattern with
  | Some p => (false, p)
  | None => (true, 0)
  end.

(** Line 107: [read] stores the bytes it returns at the start of
    [buffer]. *)
Definition storeBytes (buffer data : list Z) : list Z :=
  data ++ drop (length data) buffer.

(** Lines 118-127: [for (i = 0; i < blockSize; i++) if (buffer[i] !=
    expected[i]) { ...; break; }] over the two [blockSize]-byte vectors. *)
Fixpoint firstMismatch (buffer expected : list Z) : bool :=
  match buffer, expected with
  | b :: buffer', e :: expected' =>
      if b =? e then firstMismatch buffer' expected' else true
  | _, _ => false
  end.

(** ** Device I/O *)

(** The device as seen through a file descriptor: [io_open] (with
    [O_RDONLY] when its flag is [true]) fails with [None]; [io_read d n]
    gives the new device state, the result of [::read], the bytes it
    stored, and the time the call took; [io_write d buf] likewise.
    [io_time d] is [ut1::getTimeSec()] in state [d]. [io_outfile d read
    passIndex] tells whether the CSV export of the pass succeeds: it is
    [false] exactly when the [-o] prefix is not empty and
    [std::ofstream os(outfilename)] fails for the file of that direction
    and pass index (line 257). *)
Record IO (D : Type) := mkIO {
  io_open : D -> bool -> option D;
  io_read : D -> Z -> D * Z * list Z * Q;
  io_write : D -> list Z -> D * Z * Q;
  io_close : D -> D;
  io_time : D -> Q;
  io_outfile : D -> bool -> Z -> bool
}.
Arguments io_open {D}. Arguments io_read {D}. Arguments io_write {D}.
Arguments io_close {D}. Arguments io_time {D}. Arguments io_outfile {D}.

Section PassExecutor.

Variable D : Type.
Variable io : IO D.
Variable c : Config.

(** The locals of a pass loop: the state, the device, [buffer],
    [expected] and [lastProgressTime]. *)
Record Loop := mkLoop {
  lp_st : State;
  lp_dev : D;
  lp_buffer : list Z;
  lp_expected : list Z;
  lp_lastProgressTime : Q
}.

(** One iteration of the loop of [readPass] (lines 100-134). *)
Definition readBlock (pattern : option Z) (s : Loop) (blockIndex : Z) : Loop :=
  let '(ub_deref, p) := deref pattern in
  let expected := initBlock (lp_expected s) blockIndex p in
  let st0 := flagUb (ub_deref || initBlock_oob (lp_expected s)) (lp_st s) in
  let a := accessSize c blockIndex in
  let '(d', result, data, elapsed) := io_read io (lp_dev s) a in
  let '(st2, buffer) :=
    if result <? 0 then
      (mapTotalRead addError (mapBlock blockIndex addError st0), lp_buffer s)
    else
      let buffer := storeBytes (lp_buffer s) (take (Z.to_nat result) data) in
      let st1 :=
        match pattern with
        | Some _ =>
            if firstMismatch buffer expected
            then mapTotalRead addError (mapBlock blockIndex addError st0)
            else st0
        | None => st0
        end in
      (mapTotalRead (addTransfer elapsed a)
         (mapBlock blockIndex (addTransfer elapsed a) st1), buffer) in
  let '(st3, lastProgressTime) :=
    printProgress c st2 (lp_lastProgressTime s) (io_time io d') in
  mkLoop st3 d' buffer expected lastProgressTime.

(** Lines 137-139 and 185-187: [close(fd)], [printPassStats(read)] (whose
    CSV export of lines 253-266 throws when the file cannot be created)
    and [passIndex++]. *)
Definition passEnd (read : bool) (s : Loop) : Error + (State * D) :=
  let d2 := io_close io (lp_dev s) in
  if io_outfile io d2 read (passIndex (lp_st s))
  then inr (nextPass (printPassStats c read (lp_st s)), d2)
  else inl OutfileOpenError.

(** Lines 84-87 and 95-96: the locals of [readPass] before its loop, with
    [lastProgressTime] read in state [d] (before the [open]) and the
    device opened as [d1]. *)
Definition readStart (pattern : option Z) (st : State) (d d1 : D) : Loop :=
  let st0 := setBlockStats (repeat zeroStats (Z.to_nat (numBlocks c))) st in
  let '(ub_deref, p) := deref pattern in
  let buffer := repeat 0 (Z.to_nat (blockSize c)) in
  let expected := repeat p (Z.to_nat (blockSize c)) in
  mkLoop (flagUb ub_deref st0) d1 buffer expected (io_time io d).

(** [readPass(pattern)] (lines 82-140). *)
Definition readPass (pattern : option Z) (st : State) (d : D)
  : Error + (State * D) :=
  match io_open io d true with
  | None => inl DeviceOpenError
  | Some d1 =>
      passEnd true (foldl (readBlock pattern) (readStart pattern st d d1)
                          (seqZ 0 (numBlocks c)))
  end.

(** One iteration of the loop of [writePass] (lines 160-182). *)
Definition writeBlock (pattern : Z) (s : Loop) (blockIndex : Z) : Loop :=
  let buffer := initBlock (lp_buffer s) blockIndex pattern in
  let st0 := flagUb (initBlock_oob (lp_buffer s)) (lp_st s) in
  let a := accessSize c blockIndex in
  let '(d', result, elapsed) :=
    io_write io (lp_dev s) (take (Z.to_nat a) buffer) in
  let st2 :=
    if result <? 0 then
      mapTotalWrite addError (mapBlock blockIndex addError st0)
    else
      mapTotalWrite (addTransfer elapsed a)
        (mapBlock blockIndex (addTransfer elapsed a) st0) in
  let '(st3, lastProgressTime) :=
    printProgress c st2 (lp_lastProgressTime s) (io_time io d') in
  mkLoop st3 d' buffer (lp_expected s) lastProgressTime.

(** Lines 144-156: the locals of [writePass] before its loop. *)
Definition writeStart (pattern : Z) (st : State) (d d1 : D) : Loop :=
  let st0 := setBlockStats (repeat zeroStats (Z.to_nat (numBlocks c))) st in
  let buffer := repeat pattern (Z.to_nat (blockSize c)) in
  mkLoop st0 d1 buffer [] (io_time io d).

(** [writePass(pattern)] (lines 142-188). *)
Definition writePass (pattern : Z) (st : State) (d : D)
  : Error + (State * D) :=
  match io_open io d false with
  | None => inl DeviceOpenError
  | Some d1 =>
      passEnd false (foldl (writeBlock pattern) (writeStart pattern st d d1)
                           (seqZ 0 (numBlocks c)))
  end.

(** [checkReadOnly] (lines 47-53). *)
Definition checkReadOnly (st : State) (d : D) : Error + (State * D) :=
  readPass None (setNumPasses 1 st) d.

(** [checkWriteRead] (lines 55-65): [writePass(p); readPass(p);] for each
    pattern in order; an exception ends the run. *)
Fixpoint writeReadLoop (pats : list Z) (st : State) (d : D)
  : Error + (State * D) :=
  match pats with
  | [] => inr (st, d)
  | p :: pats' =>
      match writePass p st d with
      | inl e => inl e
      | inr (st1, d1) =>
          match readPass (Some p) st1 d1 with
          | inl e => inl e
          | inr (st2, d2) => writeReadLoop pats' st2 d2
          end
      end
  end.

Definition checkWriteRead (st : State) (d : D) : Error + (State * D) :=
  writeReadLoop (patterns c)
    (setNumPasses (Z.of_nat (length (patterns c)) * 2) st) d.

End PassExecutor.

Arguments mkLoop {D}. Arguments lp_st {D}. Arguments lp_dev {D}.
Arguments lp_buffer {D}. Arguments lp_expected {D}.
Arguments lp_lastProgressTime {D}.

(** [main] from the construction of the checker to the end of the passes
    (lines 370-392); [overwrite] selects the write/read mode. *)
Definition scanbadblocks {D} (io : IO D) (blockSize_ sizeBytes_ : Z)
  (patterns_ : list Z) (overwrite : bool) (d : D) : Error + (State * D) :=
  match BlockChecker blockSize_ sizeBytes_ patterns_ with
  | inl e => inl e
  | inr c =>
      if overwrite then checkWriteRead D io c (initState c) d
      else checkReadOnly D io c (initState c) d
  end.

(** The value returned by the [::read] call of block [i] (line 107) and
    by the [write] call of block [i] (line 168), from the loop locals [s]
    before that block. *)
Definition readResult {D} (io : IO D) (c : Config) (s : Loop D) (i : Z) : Z :=
  let '(_, result, _, _) := io_read io (lp_dev s) (accessSize c i) in result.

Definition writeResult {D} (io : IO D) (c : Config) (pattern : Z) (s : Loop D)
  (i : Z) : Z :=
  let '(_, result, _) :=
    io_write io (lp_dev s)
      (take (Z.to_nat (accessSize c i)) (initBlock (lp_buffer s) i pattern)) in
  result.

(** ** Concrete devices *)

(** A device of [length contents] bytes behind a file descriptor whose
    offset starts at 0 on every [open]: reads return the stored bytes,
    writes store them, both stop at the end of the device; every call
    takes one second. *)
Record Disk := mkDisk {
  contents : list Z;
  offset : Z
}.

Definition diskRead (d : Disk) (n : Z) : Disk * Z * list Z * Q :=
  let data := take (Z.to_nat n) (drop (Z.to_nat (offset d)) (contents d)) in
  (mkDisk (contents d) (offset d + Z.of_nat (length data)),
   Z.of_nat (length data), data, 1%Q).

Definition diskWrite (d : Disk) (buf : list Z) : Disk * Z * Q :=
  let off := Z.to_nat (offset d) in
  let w := take (length (contents d) - off) buf in
  (mkDisk (take off (contents d) ++ w ++ drop (off + length w) (contents d))
          (offset d + Z.of_nat (length w)),
   Z.of_nat (length w), 1%Q).

(** The disk, with a clock [clock] and a file system [outfile] for the
    CSV export. *)
Definition diskIO (clock : Disk -> Q) (outfile : Disk -> bool -> Z -> bool)
  : IO Disk :=
  mkIO Disk (fun d _ => Some (mkDisk (contents d) 0)) diskRead diskWrite
       (fun d => d) clock outfile.

(** The concrete devices below have a clock that reads 0 in every state (no
    progress line is ever due) and a file system in which every CSV file
    can be created. *)
Definition healthyIO : IO Disk :=
  diskIO (fun _ => 0%Q) (fun _ _ _ => true).

(** A device on which every [read] and [write] fails with [-1]. *)
Definition failingIO : IO Disk :=
  mkIO Disk (fun d _ => Some (mkDisk (contents d) 0))
       (fun d _ => (d, -1, [], 1%Q)) (fun d _ => (d, -1, 1%Q)) (fun d => d)
       (fun _ => 0%Q) (fun _ _ _ => true).

(** A device on which every [read] and [write] transfers nothing and
    returns 0 (a short transfer). *)
Definition shortIO : IO Disk :=
  mkIO Disk (fun d _ => Some (mkDisk (contents d) 0))
       (fun d _ => (d, 0, [], 1%Q)) (fun d _ => (d, 0, 1%Q)) (fun d => d)
       (fun _ => 0%Q) (fun _ _ _ => true).

(** Five blocks of one second each, at 10, 20, 30, 40 and 50 MB/s. *)
Definition exampleBlocks : list BlockStats :=
  map (fun k => mkBlockStats 1 0 (k * 1048576)) [10; 20; 30; 40; 50].

(** ** Final result ([printResult], lines 67-78) *)

(** [getReadBytesPerSecond] / [getWriteBytesPerSecond] (lines 231-247):
    [bytes / time] when [time > 0.0] and [bytes > 0.0], else [0.0]. *)
Definition bytesPerSecond (total : BlockStats) : Q :=
  if Qlt_le_dec 0 (time total) then
    if Qlt_le_dec 0 (inject_Z (bytes total)) then
      (inject_Z (bytes total) / time total)%Q
    else 0%Q
  else 0%Q.

(** The verdict line: "OK: No errors detected." or "ERROR: [total] errors
    detected ([read] read errors, [write] write errors)". *)
Inductive Verdict :=
| VerdictOK
| VerdictErrors (total readErrors writeErrors : Z).

(** [printResult]: the two rates in MB/s and the verdict; the sum of the
    two [size_t] error counters is taken modulo [2^64]. *)
Definition printResult (st : State) : Q * Q * Verdict :=
  let e := wrap (errors (totalRead st) + errors (totalWrite st)) in
  ((bytesPerSecond (totalRead st) / MB)%Q,
   (bytesPerSecond (totalWrite st) / MB)%Q,
   if 0 <? e then VerdictErrors e (errors (totalRead st))
                                  (errors (totalWrite st))
   else VerdictOK).

(** ** Progress values ([printProgress], lines 192-228) *)

Record Progress := mkProgress {
  pr_bytes : Q;       (* bytes done in the current pass *)
  pr_percent : Q;     (* percent of the whole run *)
  pr_remaining : Q    (* estimated seconds left *)
}.

(** Lines 198-223, for the block [blockIndex] of the current pass. *)
Definition progressValues (c : Config) (st : State) (blockIndex : Z)
  : Progress :=
  let totalBytesOnePass := (inject_Z (numBlocks c) * inject_Z (blockSize c))%Q in
  let '(totalReadBytes, totalWriteBytes) :=
    if 1 <? numPasses st
    then ((inject_Z (numPasses st / 2) * totalBytesOnePass)%Q,
          (inject_Z (numPasses st / 2) * totalBytesOnePass)%Q)
    else (totalBytesOnePass, 0%Q) in
  let bytes_ := (inject_Z blockIndex * inject_Z (blockSize c))%Q in
  let percent := ((inject_Z (passIndex st) * totalBytesOnePass + bytes_)
                  / (totalReadBytes + totalWriteBytes) * 100)%Q in
  let rr := bytesPerSecond (totalRead st) in
  let wr := bytesPerSecond (totalWrite st) in
  let remRead :=
    if Qlt_le_dec 0 rr
    then ((totalReadBytes - inject_Z (bytes (totalRead st))) / rr)%Q
    else if Qlt_le_dec 0 wr
    then ((totalReadBytes - inject_Z (bytes (totalRead st))) / wr)%Q
    else 0%Q in
  let remWrite :=
    if Qlt_le_dec 0 wr
    then ((totalWriteBytes - inject_Z (bytes (totalWrite st))) / wr)%Q
    else 0%Q in
  mkProgress bytes_ percent (remRead + remWrite)%Q.

(** Lines 192-197 and 228 over the successive calls of one pass: a line is
    printed at time [now] only when [now - lastProgressTime >= 0.5], and
    only then does [lastProgressTime] become [now]. The result is the list
    of the times at which a line is printed. *)
Fixpoint progressEmissions (lastProgressTime : Q) (times : list Q) : list Q :=
  match times with
  | [] => []
  | now :: times' =>
      if Qlt_le_dec (now - lastProgressTime) (1 # 2)
      then progressEmissions lastProgressTime times'
      else now :: progressEmissions now times'
  end.

(** ** Device images *)

(** What [initBlock] makes of a [blockSize]-byte buffer whose bytes from
    index 8 on hold the pattern: the content written for block [i]. *)
Definition blockImage (bs p i : Z) : list Z :=
  map (patternByte p i) (seqZ 0 8) ++ repeat p (Z.to_nat bs - 8).

(** Byte [x] of a device after a write pass with pattern [p]. *)
Definition imageByte (bs p x : Z) : Z :=
  nth (Z.to_nat (x mod bs)) (blockImage bs p (x / bs)) 0.

(** The whole device after a write pass with pattern [p]. *)
Definition diskImage (c : Config) (p : Z) : list Z :=
  map (imageByte (blockSize c) p) (seqZ 0 (sizeBytes c)).

(** ** Pass bookkeeping *)

(** The pass index, the pass count and the reports of a state. *)
Definition frame (st : State) : Z * Z * list PassReport :=
  (passIndex st, numPasses st, reports st).

(** What one block step does to the error counters: at most one error,
    counted both on the block and on the direction's total. *)
Definition errorStep {D} (tot oth : State -> BlockStats) (s s' : Loop D)
  (i : Z) : Prop :=
  exists e : bool,
    map errors (blockStats (lp_st s'))
      = (if e then alter (fun x => wrap (x + 1)) (Z.to_nat i)
                     (map errors (blockStats (lp_st s)))
         else map errors (blockStats (lp_st s))) /\
    errors (tot (lp_st s'))
      = (if e then wrap (errors (tot (lp_st s)) + 1)
         else errors (tot (lp_st s))) /\
    oth (lp_st s') = oth (lp_st s).

(** * Properties *)

(** ** Pattern generator *)

(** A clock that does not go back when the device is opened and advances
    by at least 0.5 s over every [read]. *)
Definition tickingReads (D : Type) (io : IO D) : Prop :=
  (forall d b d1, io_open io d b = Some d1 -> (io_time io d <= io_time io d1)%Q) /\
  (forall d n,
     (io_time io d + (1 # 2) <= io_time io (fst (fst (fst (io_read io d n)))))%Q).

(** The disk of [diskIO] paired with a clock, in seconds, that every
    [read] and [write] advances by one. *)
Definition tickingIO : IO (Disk * Z) :=
  mkIO (Disk * Z)
    (fun dt _ => Some (mkDisk (contents (fst dt)) 0, snd dt))
    (fun dt n => let '(d', r, data, el) := diskRead (fst dt) n in
                 ((d', snd dt + 1), r, data, el))
    (fun dt buf => let '(d', r, el) := diskWrite (fst dt) buf in
                   ((d', snd dt + 1), r, el))
    (fun dt => dt) (fun dt => inject_Z (snd dt)) (fun _ _ _ => true).

Lemma initBlock_lookup (buffer : list Z) (blockIndex pattern : Z) (k : nat) :
  (8 <= length buffer)%nat -> (k < 8)%nat ->
  initBlock buffer blockIndex pattern !! k
  = Some (patternByte pattern blockIndex (Z.of_nat k)).
Proof.
  intros Hlen Hk.
  do 8 (destruct buffer as [|? buffer]; [simpl in Hlen; lia|]).
  unfold initBlock.
  replace (seqZ 0 8) with [0; 1; 2; 3; 4; 5; 6; 7] by reflexivity.
  do 8 (destruct k as [|k]; [reflexivity|]). lia.
Qed.

Lemma initBlock_length (buffer : list Z) (blockIndex pattern : Z) :
  length (initBlock buffer blockIndex pattern) = length buffer.
Proof.
  unfold initBlock. generalize buffer.
  induction (seqZ 0 8) as [|k ks IH]; intros b; simpl; [done|].
  by rewrite IH, length_insert.
Qed.

Lemma testbit_above (a w n : Z) :
  0 <= a < 2 ^ w -> 0 <= w <= n -> Z.testbit a n = false.
Proof.
  intros Ha Hn. destruct (Z.eq_dec a 0) as [->|Ha0].
  - apply Z.testbit_0_l.
  - apply Z.bits_above_log2; [lia|].
    apply Z.log2_lt_pow2; [lia|].
    eapply Z.lt_le_trans; [apply Ha|]. apply Z.pow_le_mono_r; lia.
Qed.

Lemma testbit_patternByte (pattern blockIndex k m : Z) :
  0 <= k -> 0 <= m < 8 ->
  Z.testbit (patternByte pattern blockIndex k) m
  = xorb (Z.testbit pattern m) (Z.testbit blockIndex (m + 8 * k)).
Proof.
  intros Hk Hm. unfold patternByte.
  change 255 with (Z.ones 8).
  rewrite Z.land_spec, Z.lxor_spec, Z.land_spec, Z.shiftr_spec by lia.
  rewrite Z.ones_spec_low by lia. rewrite !andb_true_r. reflexivity.
Qed.

Lemma patternByte_inj (pattern i j : Z) :
  0 <= i < W64 -> 0 <= j < W64 ->
  (forall k, 0 <= k < 8 -> patternByte pattern i k = patternByte pattern j k) ->
  i = j.
Proof.
  intros Hi Hj Heq. apply Z.bits_inj'. intros n Hn.
  destruct (Z.lt_ge_cases n 64) as [Hlt|Hge].
  - pose proof (Z.div_mod n 8 ltac:(lia)) as Hdm.
    pose proof (Z.mod_pos_bound n 8 ltac:(lia)) as Hmb.
    set (k := n / 8) in *. set (m := n mod 8) in *.
    assert (Hn' : n = m + 8 * k) by lia.
    assert (Hk : 0 <= k < 8) by lia.
    assert (Hm : 0 <= m < 8) by lia.
    pose proof (f_equal (fun z => Z.testbit z m) (Heq k Hk)) as Hb.
    simpl in Hb. rewrite !testbit_patternByte in Hb by lia.
    rewrite Hn'. destruct (Z.testbit pattern m), (Z.testbit i (m + 8 * k)),
      (Z.testbit j (m + 8 * k)); simpl in *; congruence.
  - unfold W64 in *. rewrite !(testbit_above _ 64) by lia. reflexivity.
Qed.

(** C9. For every pattern byte [p] and block indices [i <> j] below
    [2^64], the buffers produced by [initBlock] for [i] and for [j] differ
    in at least one of their first 8 bytes, and byte [k] of each is
    [p XOR byte_k(index)] (little-endian). *)
Theorem initBlock_index_sensitive (buf1 buf2 : list Z) (p i j : Z) :
  0 <= p < 256 -> 0 <= i < W64 -> 0 <= j < W64 -> i <> j ->
  (8 <= length buf1)%nat -> (8 <= length buf2)%nat ->
  (forall k : nat, (k < 8)%nat ->
     initBlock buf1 i p !! k
     = Some (Z.lxor p (Z.land (Z.shiftr i (8 * Z.of_nat k)) 255))) /\
  exists k : nat, (k < 8)%nat /\
    initBlock buf1 i p !! k <> initBlock buf2 j p !! k.
Proof.
  intros Hp Hi Hj Hij H1 H2. split.
  - intros k Hk. rewrite initBlock_lookup by done. f_equal.
    unfold patternByte. apply Z.bits_inj'. intros n Hn.
    change 255 with (Z.ones 8).
    destruct (Z.lt_ge_cases n 8).
    + rewrite Z.land_spec, Z.ones_spec_low by lia. apply andb_true_r.
    + rewrite Z.land_spec, Z.ones_spec_high, andb_false_r by lia.
      rewrite Z.lxor_spec, Z.land_spec, Z.ones_spec_high, andb_false_r by lia.
      rewrite (testbit_above p 8) by lia. reflexivity.
  - set (P := fun k : nat => initBlock buf1 i p !! k = initBlock buf2 j p !! k).
    destruct (decide (Forall P (seq 0 8))) as [HF|HF].
    + exfalso. apply Hij. apply (patternByte_inj p); [done|done|].
      intros k Hk. rewrite Forall_forall in HF.
      specialize (HF (Z.to_nat k)). unfold P in HF.
      rewrite !initBlock_lookup in HF by lia.
      rewrite Z2Nat.id in HF by lia.
      assert (Hin : Z.to_nat k ∈ seq 0 8)
        by (apply elem_of_seq; lia).
      specialize (HF Hin). congruence.
    + apply not_Forall_Exists in HF; [|apply _].
      apply Exists_exists in HF as (k & Hin & Hk).
      apply elem_of_seq in Hin. exists k. split; [lia|exact Hk].
Qed.

(** ** Block geometry *)

Lemma sumZ_app (l1 l2 : list Z) : sumZ (l1 ++ l2) = sumZ l1 + sumZ l2.
Proof. induction l1 as [|x l1 IH]; simpl; [done|]. unfold sumZ in *. lia. Qed.

Section Geometry.

Variables (bs sz : Z) (pats : list Z).
Hypotheses (Hbs : 0 < bs) (Hsz : 0 < sz) (Hnowrap : sz + bs <= W64).

Let c := mkConfig bs sz (wrap (sz + bs - 1) / bs) pats.

Lemma wrap_small (z : Z) : 0 <= z < W64 -> wrap z = z.
Proof. intros. unfold wrap. apply Z.mod_small. lia. Qed.

Lemma numBlocks_ceil :
  numBlocks c = if sz mod bs =? 0 then sz / bs else sz / bs + 1.
Proof.
  simpl. rewrite wrap_small by lia.
  pose proof (Z.div_mod sz bs ltac:(lia)) as Hdm.
  pose proof (Z.mod_pos_bound sz bs Hbs) as Hm.
  destruct (Z.eqb_spec (sz mod bs) 0) as [H0|H0].
  - symmetry. apply Z.div_unique with (bs - 1); nia.
  - symmetry. apply Z.div_unique with (sz mod bs - 1); nia.
Qed.

Lemma accessSize_full (i : Z) :
  0 <= i -> (i + 1) * bs <= sz -> accessSize c i = bs.
Proof.
  intros Hi Hle. unfold accessSize. simpl.
  rewrite wrap_small by nia. destruct (Z.ltb_spec sz ((i + 1) * bs)); lia.
Qed.

Lemma accessSize_partial (i : Z) :
  sz < (i + 1) * bs -> (i + 1) * bs < W64 -> accessSize c i = sz mod bs.
Proof.
  intros Hgt Hlt. unfold accessSize. simpl.
  rewrite wrap_small by nia. destruct (Z.ltb_spec sz ((i + 1) * bs)); lia.
Qed.

Lemma sum_full_blocks (k : nat) :
  Z.of_nat k * bs <= sz ->
  sumZ (map (accessSize c) (seqZ 0 (Z.of_nat k))) = Z.of_nat k * bs.
Proof.
  induction k as [|k IH]; intros Hk; [reflexivity|].
  rewrite seqZ_S, map_app, sumZ_app, IH by lia. simpl.
  rewrite accessSize_full by lia. lia.
Qed.

(** The access lengths of a pass: [blockSize] for every block, except
    the last one when [sizeBytes % blockSize != 0], which has length
    [sizeBytes % blockSize]; together they cover [sizeBytes] bytes. *)
Lemma accessSizes_geometry :
  (forall i, 0 <= i < numBlocks c ->
     accessSize c i =
       if (sz mod bs =? 0) || negb (i =? numBlocks c - 1) then bs
       else sz mod bs) /\
  sumZ (accessSizes c) = sz.
Proof.
  pose proof numBlocks_ceil as Hn.
  pose proof (Z.div_mod sz bs ltac:(lia)) as Hdm.
  pose proof (Z.mod_pos_bound sz bs Hbs) as Hm.
  split.
  - intros i Hi. rewrite Hn in Hi |- *.
    destruct (Z.eqb_spec (sz mod bs) 0) as [H0|H0]; simpl.
    + apply accessSize_full; nia.
    + destruct (Z.eqb_spec i (sz / bs + 1 - 1)); simpl.
      * apply accessSize_partial; nia.
      * apply accessSize_full; nia.
  - unfold accessSizes. rewrite Hn.
    destruct (Z.eqb_spec (sz mod bs) 0) as [H0|H0].
    + rewrite <- (Z2Nat.id (sz / bs)) by (apply Z.div_pos; lia).
      rewrite sum_full_blocks; rewrite Z2Nat.id by (apply Z.div_pos; lia); nia.
    + replace (sz / bs + 1) with (Z.of_nat (S (Z.to_nat (sz / bs)))) by
        (rewrite Nat2Z.inj_succ, Z2Nat.id by (apply Z.div_pos; lia); lia).
      rewrite seqZ_S, map_app, sumZ_app. simpl.
      rewrite accessSize_partial
        by (rewrite Z2Nat.id by (apply Z.div_pos; lia); nia).
      rewrite sum_full_blocks; rewrite Z2Nat.id by (apply Z.div_pos; lia); nia.
Qed.

End Geometry.

(** ** Pass executor *)

Lemma map_alter {A B} (f : A -> A) (g : B -> B) (h : A -> B) (i : nat)
  (l : list A) :
  (forall x, h (f x) = g (h x)) -> map h (alter f i l) = alter g i (map h l).
Proof.
  intros Hfg. revert i. induction l as [|x l IH]; intros [|i]; simpl;
    [done|done|by rewrite Hfg|f_equal; apply IH].
Qed.

Lemma map_alter_same {A B} (f : A -> A) (h : A -> B) (i : nat) (l : list A) :
  (forall x, h (f x) = h x) -> map h (alter f i l) = map h l.
Proof.
  intros Hf. revert i. induction l as [|x l IH]; intros [|i]; simpl;
    [done|done|by rewrite Hf|f_equal; apply IH].
Qed.

Lemma alter_middle {A} (f : A -> A) (l1 l2 : list A) (x : A) :
  alter f (length l1) (l1 ++ x :: l2) = l1 ++ f x :: l2.
Proof. induction l1 as [|y l1 IH]; simpl; [done|]. f_equal. apply IH. Qed.

Lemma sumZ_Permutation (l l' : list Z) : Permutation l l' -> sumZ l = sumZ l'.
Proof. induction 1; unfold sumZ in *; simpl; lia. Qed.

Lemma sortByRate_Permutation (l : list BlockStats) :
  Permutation (sortByRate l) l.
Proof. apply merge_sort_Permutation. Qed.

(** ** The progress line *)

(** [printProgress] changes at most the [ub] flag of the state, and sets
    it only on the out-of-range read of line 203. *)
Lemma printProgress_flag (c : Config) (st : State) (last now : Q) :
  exists b t, printProgress c st last now = (flagUb b st, t) /\
    (b = true -> progressPatternOob c st = true).
Proof.
  unfold printProgress. destruct (Qlt_le_dec _ _).
  - exists false, last. split; [|discriminate]. f_equal.
    destruct st. unfold flagUb. cbn. by rewrite orb_false_r.
  - exists (progressPatternOob c st), now. auto.
Qed.

Ltac progress_step :=
  match goal with
  | |- context [printProgress ?c ?st ?l ?n] =>
      let b := fresh "b" in let t := fresh "t" in let Hpp := fresh "Hpp" in
      let Hb := fresh "Hb" in
      destruct (printProgress_flag c st l n) as (b & t & Hpp & Hb);
      rewrite Hpp
  end.

Ltac progress_step_as b Hb :=
  match goal with
  | |- context [printProgress ?c ?st ?l ?n] =>
      let t := fresh "t" in let Hpp := fresh "Hpp" in
      destruct (printProgress_flag c st l n) as (b & t & Hpp & Hb);
      rewrite Hpp
  end.

Section PassProofs.

Variable D : Type.
Variable io : IO D.
Variable c : Config.

(** The byte counters after a loop in which step [i] adds [a i] to the
    counter of block [i] when [ok] holds of the locals before it, and
    nothing otherwise. *)
Lemma foldl_bytes (step : Loop D -> Z -> Loop D) (ok : Loop D -> Z -> bool)
  (a : Z -> Z) (n : Z) (s0 : Loop D) :
  0 <= n ->
  (forall s i, map bytes (blockStats (lp_st (step s i)))
               = if ok s i
                 then alter (fun x => wrap (x + a i)) (Z.to_nat i)
                            (map bytes (blockStats (lp_st s)))
                 else map bytes (blockStats (lp_st s))) ->
  (forall i, 0 <= a i < W64) ->
  map bytes (blockStats (lp_st s0)) = repeat 0 (Z.to_nat n) ->
  map bytes (blockStats (lp_st (foldl step s0 (seqZ 0 n))))
  = map (fun k => if ok (foldl step s0 (seqZ 0 k)) k then a k else 0)
        (seqZ 0 n).
Proof.
  intros Hn Hstep Ha H0.
  set (g := fun k => if ok (foldl step s0 (seqZ 0 k)) k then a k else 0).
  assert (Hk : forall k : nat, (k <= Z.to_nat n)%nat ->
    map bytes (blockStats (lp_st (foldl step s0 (seqZ 0 (Z.of_nat k)))))
    = map g (seqZ 0 (Z.of_nat k)) ++ repeat 0 (Z.to_nat n - k)%nat).
  { induction k as [|k IH]; intros Hle.
    - simpl. rewrite H0. f_equal. lia.
    - rewrite seqZ_S, foldl_app. simpl. rewrite Hstep.
      replace (Z.to_nat n - k)%nat with (S (Z.to_nat n - S k))%nat in IH
        by lia.
      rewrite !Z.add_0_l, map_app, <- app_assoc. simpl.
      unfold g at 2. rewrite IH by lia. cbn [repeat].
      destruct (ok _ (Z.of_nat k)).
      + rewrite Nat2Z.id.
        replace k with (length (map g (seqZ 0 (Z.of_nat k)))) at 1
          by (by rewrite length_map, length_seqZ, Nat2Z.id).
        rewrite alter_middle. simpl.
        rewrite wrap_small by (specialize (Ha (Z.of_nat k)); lia). done.
      + done. }
  rewrite <- (Z2Nat.id n) at 1 2 by lia.
  rewrite Hk by lia. rewrite Nat.sub_diag, app_nil_r. done.
Qed.

Lemma accessSize_range (i : Z) :
  0 < blockSize c < W64 -> 0 <= accessSize c i < W64.
Proof.
  intros Hbs. unfold accessSize.
  destruct (_ <? _); [|lia].
  pose proof (Z.mod_pos_bound (sizeBytes c) (blockSize c)). lia.
Qed.

(** A device on which no [read] and no [write] fails. *)
Definition neverFails : Prop :=
  (forall d n d' r data el, io_read io d n = (d', r, data, el) -> 0 <= r) /\
  (forall d buf d' r el, io_write io d buf = (d', r, el) -> 0 <= r).

Lemma readBlock_bytes (pattern : option Z) (s : Loop D) (i : Z) :
  map bytes (blockStats (lp_st (readBlock D io c pattern s i)))
  = if negb (readResult io c s i <? 0)
    then alter (fun x => wrap (x + accessSize c i)) (Z.to_nat i)
               (map bytes (blockStats (lp_st s)))
    else map bytes (blockStats (lp_st s)).
Proof.
  unfold readBlock, readResult. destruct (deref pattern) as [u p].
  destruct (io_read io (lp_dev s) (accessSize c i)) as [[[d' r] data] el].
  destruct (Z.ltb_spec r 0) as [Hlt|_]; cbn [negb]; progress_step;
    cbn [lp_st flagUb blockStats];
    unfold mapTotalRead, mapBlock, setBlockStats; cbn [blockStats].
  - by apply map_alter_same.
  - rewrite (map_alter _ (fun x => wrap (x + accessSize c i))) by reflexivity.
    f_equal.
    destruct pattern; [destruct (firstMismatch _ _)|]; cbn [blockStats];
      try reflexivity.
    by apply map_alter_same.
Qed.

Lemma writeBlock_bytes (pattern : Z) (s : Loop D) (i : Z) :
  map bytes (blockStats (lp_st (writeBlock D io c pattern s i)))
  = if negb (writeResult io c pattern s i <? 0)
    then alter (fun x => wrap (x + accessSize c i)) (Z.to_nat i)
               (map bytes (blockStats (lp_st s)))
    else map bytes (blockStats (lp_st s)).
Proof.
  unfold writeBlock, writeResult.
  destruct (io_write io (lp_dev s) _) as [[d' r] el].
  destruct (Z.ltb_spec r 0) as [Hlt|_]; cbn [negb]; progress_step;
    cbn [lp_st flagUb blockStats];
    unfold mapTotalWrite, mapBlock, setBlockStats; cbn [blockStats].
  - by apply map_alter_same.
  - by apply map_alter.
Qed.

Lemma map_bytes_zero (n : nat) : map bytes (repeat zeroStats n) = repeat 0 n.
Proof. induction n as [|n IH]; simpl; [done|]. by rewrite IH. Qed.

Lemma printPassStats_bytes (read : bool) (st : State) :
  sumZ (map bytes (blockStats (nextPass (printPassStats c read st))))
  = sumZ (map bytes (blockStats st)).
Proof.
  apply sumZ_Permutation, Permutation_map, sortByRate_Permutation.
Qed.

End PassProofs.

Lemma BlockChecker_inr (bs sz : Z) (pats : list Z) (c : Config) :
  BlockChecker bs sz pats = inr c ->
  bs <> 0 /\ sz <> 0 /\ c = mkConfig bs sz (wrap (sz + bs - 1) / bs) pats.
Proof.
  unfold BlockChecker. destruct (Z.eqb_spec bs 0); [discriminate|].
  destruct (Z.eqb_spec sz 0); [discriminate|]. intros H. injection H as <-.
  auto.
Qed.

Lemma sumZ_cons (x : Z) (l : list Z) : sumZ (x :: l) = x + sumZ l.
Proof. reflexivity. Qed.

Lemma sumZ_ge_elem (h : Z -> Z) (l : list Z) (k : Z) :
  (forall x, x ∈ l -> 0 <= h x) -> k ∈ l -> h k <= sumZ (map h l).
Proof.
  induction l as [|x l IH]; intros Hpos Hk; [by apply elem_of_nil in Hk|].
  cbn [map]. rewrite sumZ_cons.
  assert (Hl : forall l', (forall y, y ∈ l' -> 0 <= h y) -> 0 <= sumZ (map h l')).
  { induction l' as [|y l' IHl]; intros Hp; [simpl; lia|].
    cbn [map]. rewrite sumZ_cons.
    pose proof (Hp y (proj2 (elem_of_cons _ _ _) (or_introl eq_refl))).
    assert (0 <= sumZ (map h l'))
      by (apply IHl; intros; apply Hp; by apply elem_of_cons; right).
    lia. }
  pose proof (Hpos x (proj2 (elem_of_cons _ _ _) (or_introl eq_refl))).
  assert (Hpl : forall y, y ∈ l -> 0 <= h y)
    by (intros; apply Hpos; by apply elem_of_cons; right).
  pose proof (Hl l Hpl).
  apply elem_of_cons in Hk as [->|Hk]; [lia|].
  pose proof (IH Hpl Hk). lia.
Qed.

(** How the byte counters of a pass add up when the blocks whose call
    [failed] add nothing and the others add their length [a k]. *)
Lemma sum_of_trace (a : Z -> Z) (failed : Z -> bool) (n sz : Z) :
  sumZ (map a (seqZ 0 n)) = sz -> (forall k, 0 <= k < n -> 0 < a k) ->
  let total := sumZ (map (fun k => if negb (failed k) then a k else 0)
                         (seqZ 0 n)) in
  total = sz - sumZ (map (fun k => if failed k then a k else 0) (seqZ 0 n)) /\
  ((forall k, 0 <= k < n -> failed k = false) -> total = sz) /\
  ((exists k, 0 <= k < n /\ failed k = true) -> total < sz).
Proof.
  intros Hsum Hpos total.
  assert (Hsplit : forall l : list Z,
    sumZ (map (fun k => if negb (failed k) then a k else 0) l)
    + sumZ (map (fun k => if failed k then a k else 0) l) = sumZ (map a l)).
  { induction l as [|x l IH]; [reflexivity|]. cbn [map]. rewrite !sumZ_cons.
    destruct (failed x); cbn [negb]; lia. }
  pose proof (Hsplit (seqZ 0 n)) as Hs. fold total in Hs.
  split; [lia|]. split.
  - intros Hok. enough (sumZ (map (fun k => if failed k then a k else 0)
                                  (seqZ 0 n)) = 0) by lia.
    assert (Hz : forall l, (forall k, k ∈ l -> failed k = false) ->
      sumZ (map (fun k => if failed k then a k else 0) l) = 0).
    { induction l as [|x l IH]; intros Hl; [reflexivity|].
      cbn [map]. rewrite sumZ_cons.
      rewrite Hl by (apply elem_of_cons; left; done).
      rewrite IH by (intros; apply Hl; by apply elem_of_cons; right).
      done. }
    apply Hz. intros k Hk. apply elem_of_seqZ in Hk. apply Hok. lia.
  - intros (k & Hk & Hf).
    pose proof (sumZ_ge_elem (fun k => if failed k then a k else 0) (seqZ 0 n) k)
      as Hge.
    cbn beta in Hge. rewrite Hf in Hge.
    assert (a k <= sumZ (map (fun k => if failed k then a k else 0) (seqZ 0 n))).
    { apply Hge; [|apply elem_of_seqZ; lia].
      intros x Hx. apply elem_of_seqZ in Hx. specialize (Hpos x ltac:(lia)).
      destruct (failed x); lia. }
    specialize (Hpos k Hk). lia.
Qed.

(** C2 (amended). For sizes for which [sizeBytes + blockSize] does not
    wrap in 64 bits, in every completed read or write pass a block whose
    [read] or [write] call returns a negative value adds no bytes and every
    other block adds its access length (the partial last block its true
    length): the byte counters sum to [sizeBytes] minus the lengths of the
    blocks whose call failed, so to [sizeBytes] exactly when no call of the
    pass fails, and to less than [sizeBytes] when one does. *)
Theorem pass_bytes_sum (D : Type) (io : IO D) (bs sz : Z) (pats : list Z)
  (c : Config) (st : State) (d : D) :
  BlockChecker bs sz pats = inr c ->
  0 <= bs -> 0 <= sz -> sz + bs <= W64 ->
  (forall pattern d1 st' d',
     io_open io d true = Some d1 ->
     readPass D io c pattern st d = inr (st', d') ->
     let failed := fun k =>
       readResult io c (foldl (readBlock D io c pattern)
                          (readStart D io c pattern st d d1) (seqZ 0 k)) k <? 0 in
     sumZ (map bytes (blockStats st'))
       = sz - sumZ (map (fun k => if failed k then accessSize c k else 0)
                        (seqZ 0 (numBlocks c))) /\
     ((forall k, 0 <= k < numBlocks c -> failed k = false) ->
        sumZ (map bytes (blockStats st')) = sz) /\
     ((exists k, 0 <= k < numBlocks c /\ failed k = true) ->
        sumZ (map bytes (blockStats st')) < sz)) /\
  (forall pattern d1 st' d',
     io_open io d false = Some d1 ->
     writePass D io c pattern st d = inr (st', d') ->
     let failed := fun k =>
       writeResult io c pattern
         (foldl (writeBlock D io c pattern)
            (writeStart D io c pattern st d d1) (seqZ 0 k)) k <? 0 in
     sumZ (map bytes (blockStats st'))
       = sz - sumZ (map (fun k => if failed k then accessSize c k else 0)
                        (seqZ 0 (numBlocks c))) /\
     ((forall k, 0 <= k < numBlocks c -> failed k = false) ->
        sumZ (map bytes (blockStats st')) = sz) /\
     ((exists k, 0 <= k < numBlocks c /\ failed k = true) ->
        sumZ (map bytes (blockStats st')) < sz)).
Proof.
  intros Hc Hbs Hsz Hnw.
  apply BlockChecker_inr in Hc as (Hbs0 & Hsz0 & ->).
  destruct (accessSizes_geometry bs sz pats ltac:(lia) ltac:(lia) Hnw)
    as [Hgeo Hsum].
  assert (Hn : 0 <= wrap (sz + bs - 1) / bs).
  { apply Z.div_pos; [apply Z.mod_pos_bound; unfold W64; lia|lia]. }
  set (c := mkConfig bs sz (wrap (sz + bs - 1) / bs) pats) in *.
  assert (Hpos : forall k, 0 <= k < numBlocks c -> 0 < accessSize c k).
  { intros k Hk. rewrite (Hgeo k Hk).
    pose proof (Z.mod_pos_bound sz bs ltac:(lia)).
    destruct (Z.eqb_spec (sz mod bs) 0); simpl; [lia|].
    destruct (negb _); lia. }
  assert (Hrange : forall i, 0 <= accessSize c i < W64)
    by (intros; apply accessSize_range; simpl; lia).
  split; intros pattern d1 st' d' Ho H failed.
  - unfold readPass, passEnd in H. rewrite Ho in H.
    destruct (io_outfile _ _ _ _); [|discriminate].
    injection H as <- _.
    rewrite printPassStats_bytes.
    rewrite (foldl_bytes D _ (fun s i => negb (readResult io c s i <? 0)) (accessSize c));
      [| |intros; apply readBlock_bytes|apply Hrange|].
    + apply (sum_of_trace (accessSize c) failed); [exact Hsum|exact Hpos].
    + exact Hn.
    + unfold readStart. destruct (deref pattern). cbn.
      apply map_bytes_zero.
  - unfold writePass, passEnd in H. rewrite Ho in H.
    destruct (io_outfile _ _ _ _); [|discriminate].
    injection H as <- _.
    rewrite printPassStats_bytes.
    rewrite (foldl_bytes D _ (fun s i => negb (writeResult io c pattern s i <? 0)) (accessSize c));
      [| |intros; apply writeBlock_bytes|apply Hrange|].
    + apply (sum_of_trace (accessSize c) failed); [exact Hsum|exact Hpos].
    + exact Hn.
    + unfold writeStart. cbn. apply map_bytes_zero.
Qed.

(** C10 (amended). A [read] or [write] that returns a non-negative count
    smaller than the access length takes the success branch: the full
    [accessSize] is added to the block's and the direction's byte
    counters and the time is accumulated, and no I/O error is counted. In
    a write pass (and a read pass without pattern) the error counters are
    unchanged; in a read pass with a pattern the only error that can be
    counted is the one of the byte comparison. *)
Theorem short_transfer_counted (D : Type) (io : IO D) (c : Config)
  (pattern : option Z) (wpat : Z) (s : Loop D) (i : Z)
  (dr : D) (rr : Z) (data : list Z) (elr : Q) (dw : D) (rw : Z) (elw : Q) :
  let a := accessSize c i in
  io_read io (lp_dev s) a = (dr, rr, data, elr) -> 0 <= rr < a ->
  io_write io (lp_dev s) (take (Z.to_nat a) (initBlock (lp_buffer s) i wpat))
    = (dw, rw, elw) -> 0 <= rw < a ->
  (exists e : bool, (pattern = None -> e = false) /\
    let st := lp_st s in
    let st' := lp_st (readBlock D io c pattern s i) in
    blockStats st' = alter (addTransfer elr a) (Z.to_nat i)
      (if e then alter addError (Z.to_nat i) (blockStats st)
       else blockStats st) /\
    totalRead st' = addTransfer elr a
      (if e then addError (totalRead st) else totalRead st) /\
    totalWrite st' = totalWrite st) /\
  (let st := lp_st s in
   let st' := lp_st (writeBlock D io c wpat s i) in
   blockStats st' = alter (addTransfer elw a) (Z.to_nat i) (blockStats st) /\
   totalWrite st' = addTransfer elw a (totalWrite st) /\
   totalRead st' = totalRead st).
Proof.
  intros a Hr Hrr Hw Hrw. split.
  - unfold readBlock. destruct (deref pattern) as [u p].
    fold a. rewrite Hr. destruct (Z.ltb_spec rr 0); [lia|].
    destruct pattern as [q|].
    + destruct (firstMismatch _ _); [exists true|exists false];
        progress_step; split; try discriminate; repeat split; reflexivity.
    + exists false. progress_step. split; [done|]. repeat split; reflexivity.
  - unfold writeBlock. fold a. rewrite Hw. destruct (Z.ltb_spec rw 0); [lia|].
    progress_step. repeat split; reflexivity.
Qed.

Lemma readBlock_ub (D : Type) (io : IO D) (c : Config) (pattern : option Z)
  (s : Loop D) (i : Z) :
  ub (lp_st s) = true -> ub (lp_st (readBlock D io c pattern s i)) = true.
Proof.
  intros H. unfold readBlock. destruct (deref pattern).
  destruct (io_read io _ _) as [[[d' r] data] el].
  destruct (r <? 0); [|destruct pattern; [destruct (firstMismatch _ _)|]];
    progress_step; simpl; by rewrite H.
Qed.

Lemma foldl_readBlock_ub (D : Type) (io : IO D) (c : Config)
  (pattern : option Z) (l : list Z) (s : Loop D) :
  ub (lp_st s) = true ->
  ub (lp_st (foldl (readBlock D io c pattern) s l)) = true.
Proof.
  revert s. induction l as [|i l IH]; intros s H; simpl; [done|].
  apply IH, readBlock_ub, H.
Qed.

(** C1 (code defect). [readPass] without a pattern never compares bytes:
    a block's counters record only the failure of the read or its time
    and length. But it does dereference the empty optional: [*pattern] at
    lines 96 and 100 is evaluated, so once the device is open the pass
    executes undefined behaviour: the locals at the end of the loop carry
    it, and the pass either returns a state that carries it or throws from
    the CSV export of [printPassStats]. *)
Theorem readPass_without_pattern (D : Type) (io : IO D) (c : Config)
  (st : State) (d d1 : D) :
  io_open io d true = Some d1 ->
  (ub (lp_st (foldl (readBlock D io c None) (readStart D io c None st d d1)
                (seqZ 0 (numBlocks c)))) = true /\
   ((exists st' d', readPass D io c None st d = inr (st', d') /\
                    ub st' = true) \/
    readPass D io c None st d = inl OutfileOpenError)) /\
  (forall (s : Loop D) (i : Z) d' r data el,
     io_read io (lp_dev s) (accessSize c i) = (d', r, data, el) ->
     let st0 := lp_st s in
     let st1 := lp_st (readBlock D io c None s i) in
     if r <? 0 then
       blockStats st1 = alter addError (Z.to_nat i) (blockStats st0) /\
       totalRead st1 = addError (totalRead st0)
     else
       blockStats st1
         = alter (addTransfer el (accessSize c i)) (Z.to_nat i)
                 (blockStats st0) /\
       totalRead st1 = addTransfer el (accessSize c i) (totalRead st0)).
Proof.
  intros Ho.
  assert (Hub : ub (lp_st (foldl (readBlock D io c None)
                  (readStart D io c None st d d1) (seqZ 0 (numBlocks c)))) = true).
  { apply foldl_readBlock_ub. simpl. apply orb_true_r. }
  split; [split; [exact Hub|]|].
  - unfold readPass, passEnd. rewrite Ho.
    destruct (io_outfile _ _ _ _); [left|by right].
    do 2 eexists. split; [reflexivity|].
    cbn [nextPass printPassStats ub]. by rewrite Hub.
  - intros s i d' r data el Hr. unfold readBlock. simpl deref. cbv zeta.
    rewrite Hr. destruct (r <? 0); progress_step; split; reflexivity.
Qed.

(** ** Statistics aggregator *)

#[global] Instance rate_le_total : Total rate_le.
Proof.
  intros a b. unfold rate_le. rewrite !Qle_bool_iff.
  destruct (Qlt_le_dec (getRateMB a) (getRateMB b)); [left|right]; auto.
  by apply Qlt_le_weak.
Qed.

#[global] Instance rate_le_trans : Transitive rate_le.
Proof.
  intros a b d. unfold rate_le. rewrite !Qle_bool_iff. apply Qle_trans.
Qed.

Lemma sortByRate_sorted (l : list BlockStats) : Sorted rate_le (sortByRate l).
Proof. apply Sorted_merge_sort, _. Qed.

Lemma sortByRate_strongly_sorted (l : list BlockStats) :
  StronglySorted rate_le (sortByRate l).
Proof. apply Sorted_StronglySorted; [apply _|apply sortByRate_sorted]. Qed.

Lemma filter_nil_forall (f : BlockStats -> bool) (l : list BlockStats) :
  Forall (fun y => f y = false) l -> List.filter f l = [].
Proof. induction 1 as [|y l Hy _ IH]; simpl; [done|]. by rewrite Hy. Qed.

Lemma countBelow_sorted (s : list BlockStats) (threshold : Q) :
  StronglySorted rate_le s ->
  countBelow s threshold = length (List.filter (belowb threshold) s).
Proof.
  induction 1 as [|x s Hs IH Hx]; [reflexivity|]. simpl. unfold belowb at 1.
  destruct (Qlt_le_dec (getRateMB x) threshold) as [Hlt|Hge]; simpl.
  - by rewrite IH.
  - rewrite filter_nil_forall; [reflexivity|].
    eapply Forall_impl; [exact Hx|]. intros y Hy. unfold rate_le in Hy.
    rewrite Qle_bool_iff in Hy. unfold belowb.
    destruct (Qlt_le_dec (getRateMB y) threshold) as [Hy'|]; [|done].
    exfalso. apply (Qlt_not_le _ _ Hy'). eapply Qle_trans; eauto.
Qed.

Lemma filter_length_Permutation (f : BlockStats -> bool)
  (l l' : list BlockStats) :
  Permutation l l' -> length (List.filter f l) = length (List.filter f l').
Proof.
  induction 1; simpl; try lia.
  - destruct (f x); simpl; lia.
  - destruct (f x), (f y); simpl; lia.
Qed.

(** C8. For each threshold of [{50, 20, 10, 5}], independently, the
    warning count of a pass is the number of its blocks whose rate is
    strictly below [med * percent / 100]; the scan from the start of the
    rate-sorted records until the first block at or above the threshold
    finds exactly that number; a warning (percent, count) is reported
    exactly when the count is positive. *)
Theorem printPassStats_outliers (c : Config) (read : bool) (st : State) :
  exists r,
    reports (printPassStats c read st) = reports st ++ [r] /\
    rp_warnings r =
      flat_map (fun percent =>
        let num := length (List.filter
                     (belowb (rp_med r * inject_Z percent / 100)%Q)
                     (blockStats st)) in
        if Nat.eqb num 0 then [] else [(percent, num)]) percentiles /\
    (forall threshold,
       countBelow (blockStats (printPassStats c read st)) threshold
       = length (List.filter (belowb threshold) (blockStats st))).
Proof.
  assert (Hcnt : forall threshold,
    countBelow (sortByRate (blockStats st)) threshold
    = length (List.filter (belowb threshold) (blockStats st))).
  { intros thr. rewrite countBelow_sorted by apply sortByRate_strongly_sorted.
    apply filter_length_Permutation, sortByRate_Permutation. }
  eexists. split; [reflexivity|]. split; [|exact Hcnt].
  cbn [rp_warnings passStats]. apply flat_map_ext. intros percent.
  by rewrite Hcnt.
Qed.

Lemma ss_first (x : BlockStats) (s : list BlockStats) (b : BlockStats) :
  StronglySorted rate_le (x :: s) -> In b (x :: s) -> rate_le x b.
Proof.
  intros Hs [<-|Hb].
  - unfold rate_le. apply Qle_bool_iff, Qle_refl.
  - apply StronglySorted_inv in Hs as [_ Hx].
    rewrite Forall_forall in Hx. apply Hx. by apply list_elem_of_In.
Qed.

Lemma ss_last (s : list BlockStats) (b : BlockStats) :
  StronglySorted rate_le s -> In b s ->
  rate_le b (nth (length s - 1) s zeroStats).
Proof.
  induction 1 as [|x s Hs IH Hx]; [done|]. intros Hb.
  destruct s as [|y s].
  - destruct Hb as [<-|[]]. unfold rate_le. apply Qle_bool_iff, Qle_refl.
  - replace (length (x :: y :: s) - 1)%nat with (S (length (y :: s) - 1))
      by (simpl; lia).
    cbn [nth]. destruct Hb as [<-|Hb].
    + rewrite Forall_forall in Hx. apply Hx. apply list_elem_of_In.
      apply (nth_In (y :: s) zeroStats). simpl. lia.
    + by apply IH.
Qed.

(** C7. After [printPassStats] sorts the records of a pass by rate, the
    reported [min], [max] and [med] are the rates of the records at
    indices [0], [numBlocks - 1] and [numBlocks / 2] (integer division:
    the upper middle one for an even count) of the sorted sequence, which
    is a permutation of the pass's records; [min] and [max] bound every
    block's rate. For rates [10, 20, 30, 40, 50] MB/s this gives
    [min = 10], [max = 50] and [med = 30]. *)
Theorem printPassStats_summary (c : Config) (read : bool) (st : State) :
  (let s := blockStats (printPassStats c read st) in
   let n := length s in
   exists r,
     reports (printPassStats c read st) = reports st ++ [r] /\
     Permutation s (blockStats st) /\ Sorted rate_le s /\
     rp_min r = getRateMB (nth 0 s zeroStats) /\
     rp_max r = getRateMB (nth (n - 1) s zeroStats) /\
     rp_med r = getRateMB (nth (n / 2) s zeroStats) /\
     (forall b, In b (blockStats st) ->
        (rp_min r <= getRateMB b <= rp_max r)%Q)) /\
  (let r := passReport true (5 * 1048576) exampleBlocks in
   (rp_min r == 10 /\ rp_max r == 50 /\ rp_med r == 30)%Q).
Proof.
  split.
  - cbv zeta. eexists. split; [reflexivity|].
    split; [apply sortByRate_Permutation|].
    split; [apply sortByRate_sorted|].
    split; [reflexivity|]. split; [reflexivity|]. split; [reflexivity|].
    intros b Hb. cbn [rp_min rp_max passStats printPassStats blockStats].
    pose proof (sortByRate_strongly_sorted (blockStats st)) as Hs.
    assert (Hin : In b (sortByRate (blockStats st))).
    { eapply Permutation_in; [symmetry; apply sortByRate_Permutation|done]. }
    remember (sortByRate (blockStats st)) as s0 eqn:Es. clear Es.
    split.
    + destruct s0 as [|x s]; [done|]. cbn [nth].
      apply Qle_bool_iff. exact (ss_first x s b Hs Hin).
    + apply Qle_bool_iff. exact (ss_last s0 b Hs Hin).
  - vm_compute. repeat split; discriminate.
Qed.

(** ** Concrete runs *)

(** C2 (counterexample). A write pass over a 20-byte device with 8-byte
    blocks (three blocks, the last one partial) on which every [write]
    fails: the pass runs without undefined behaviour, every block counts
    an I/O error and no block's byte counter grows, so the counters sum to
    0, not to [sizeBytes = 20]. *)
Lemma pass_bytes_sum_io_error :
  BlockChecker 8 20 [0] = inr (mkConfig 8 20 3 [0]) /\
  match writePass Disk failingIO (mkConfig 8 20 3 [0]) 0
          (initState (mkConfig 8 20 3 [0])) (mkDisk (repeat 0 20) 0) with
  | inr (st, _) => sumZ (map bytes (blockStats st)) <> 20 /\
                   errors (totalWrite st) = 3 /\ ub st = false
  | inl _ => False
  end.
Proof. vm_compute. split; [reflexivity|]. repeat split; discriminate. Qed.

(** C3 (code defect). Write then read with pattern [0x55] on a healthy
    10-byte device with 16-byte blocks: the read compares all [blockSize]
    bytes of [buffer], of which only the 10 read ones hold device data, so
    the round trip reports one read error; with whole blocks (32 bytes,
    8-byte blocks, patterns [0x55, 0xaa]) it reports none. *)
Theorem roundtrip_partial_block :
  match scanbadblocks healthyIO 16 10 [85] true (mkDisk (repeat 0 10) 0) with
  | inr (st, d) => contents d = repeat 85 10 /\
                   errors (totalWrite st) = 0 /\ errors (totalRead st) = 1
  | inl _ => False
  end /\
  match scanbadblocks healthyIO 8 32 [85; 170] true (mkDisk (repeat 0 32) 0)
  with
  | inr (st, _) => errors (totalWrite st) = 0 /\ errors (totalRead st) = 0
  | inl _ => False
  end.
Proof. vm_compute. repeat split. Qed.

(** C4 (code defect). With patterns [0x55, 0xaa] ([numPasses = 4]) the
    progress line of pass index 1, the read pass of [0x55], shows
    direction "read" but pattern [patterns[1] = 0xaa] instead of
    [patterns[1 / 2] = 0x55]; at pass index 3 it reads past the end of
    [patterns]. *)
Theorem progressHead_pattern :
  progressHead 4 1 [85; 170] = Some ("read"%string, Some 170) /\
  nth (Z.to_nat (1 / 2)) [85; 170] 0 = 85 /\
  progressHead 4 3 [85; 170] = Some ("read"%string, None) /\
  match scanbadblocks healthyIO 8 32 [85; 170] true (mkDisk (repeat 0 32) 0)
  with
  | inr (st, _) => numPasses st = 4 /\ passIndex st = 4
  | inl _ => False
  end.
Proof. vm_compute. repeat split. Qed.

(** C5 (counterexample). With [blockSize = 0] the constructor divides by
    zero (line 36) before any size check: the run fails with the division
    by zero, not with the "cannot determine size" error. *)
Lemma blockSize_zero_divides :
  BlockChecker 0 10 [0] = inl DivisionByZero /\
  scanbadblocks healthyIO 0 10 [0] false (mkDisk (repeat 0 10) 0)
    = inl DivisionByZero.
Proof. split; reflexivity. Qed.

(** C5 (amended). With [blockSize > 0], a device of size 0 makes the
    constructor throw "Cannot determine size!" (the spec's
    [InvalidDevice]), so the run ends with that error before any pass. *)
Theorem empty_device_rejected (D : Type) (io : IO D) (bs : Z)
  (pats : list Z) (overwrite : bool) (d : D) :
  0 < bs -> scanbadblocks io bs 0 pats overwrite d = inl CannotDetermineSize.
Proof.
  intros Hbs. unfold scanbadblocks, BlockChecker.
  destruct (Z.eqb_spec bs 0); [lia|]. reflexivity.
Qed.

(** C6 (code defect). [numBlocks = (sizeBytes + blockSize - 1) / blockSize]
    wraps in 64 bits: for a 10-byte device and [blockSize = 2^64 - 1] it
    is 0, so the pass has no block and its access lengths sum to 0. *)
Theorem geometry_wraps :
  match BlockChecker (W64 - 1) 10 [0] with
  | inr c => numBlocks c = 0 /\ accessSizes c = [] /\ sumZ (accessSizes c) = 0
  | inl _ => False
  end.
Proof. vm_compute. repeat split. Qed.

(** C10 (counterexample). A verifying read pass over one 16-byte block on
    a device whose [read] returns 0: the block is counted with its 16
    bytes, and the comparison of the unfilled buffer records an error. *)
Lemma short_read_error :
  match readPass Disk shortIO (mkConfig 16 16 1 [85]) (Some 85)
          (initState (mkConfig 16 16 1 [85])) (mkDisk (repeat 85 16) 0) with
  | inr (st, _) => map bytes (blockStats st) = [16] /\
                   map errors (blockStats st) = [1]
  | inl _ => False
  end.
Proof. vm_compute. repeat split. Qed.

(** The clock of [tickingIO] satisfies [tickingReads]. *)
Lemma tickingIO_ticks : tickingReads (Disk * Z) tickingIO.
Proof.
  split.
  - intros [d t] b d1 H. cbn in H. injection H as <-. apply Qle_refl.
  - intros [d t] n. cbn [io_read io_time tickingIO fst snd].
    destruct (diskRead d n) as [[[d' r] data] el]. cbn [fst snd].
    rewrite inject_Z_plus. change (inject_Z 1) with 1%Q. lra.
Qed.

(** With that clock, a write/read run over two 8-byte blocks with the
    single pattern [0x55] prints progress lines during pass 1, which
    read [patterns[1]] out of range. *)
Lemma checkWriteRead_ticking_ub :
  match checkWriteRead (Disk * Z) tickingIO (mkConfig 8 16 2 [85])
          (initState (mkConfig 8 16 2 [85])) (mkDisk (repeat 0 16) 0, 0) with
  | inr (st, _) => ub st = true
  | inl _ => False
  end.
Proof. vm_compute. reflexivity. Qed.

(** ** Witnesses *)

Lemma healthyIO_neverFails : neverFails Disk healthyIO.
Proof.
  split.
  - intros d n d' r data el H. simpl in H. unfold diskRead in H.
    injection H as _ <- _ _. lia.
  - intros d buf d' r el H. simpl in H. unfold diskWrite in H.
    injection H as _ <- _. lia.
Qed.

Lemma initBlock_index_sensitive_witness :
  (forall k : nat, (k < 8)%nat ->
     initBlock (repeat 0 8) 1 85 !! k
     = Some (Z.lxor 85 (Z.land (Z.shiftr 1 (8 * Z.of_nat k)) 255))) /\
  exists k : nat, (k < 8)%nat /\
    initBlock (repeat 0 8) 1 85 !! k <> initBlock (repeat 0 8) 256 85 !! k.
Proof.
  apply initBlock_index_sensitive; unfold W64; simpl; lia.
Defined.

Lemma pass_bytes_sum_witness :
  let c := mkConfig 8 20 3 [0] in
  let d := mkDisk (repeat 0 20) 0 in
  BlockChecker 8 20 [0] = inr c /\
  (forall pattern d1 st' d',
     io_open healthyIO d true = Some d1 ->
     readPass Disk healthyIO c pattern (initState c) d = inr (st', d') ->
     let failed := fun k =>
       readResult healthyIO c (foldl (readBlock Disk healthyIO c pattern)
         (readStart Disk healthyIO c pattern (initState c) d d1) (seqZ 0 k)) k
       <? 0 in
     sumZ (map bytes (blockStats st'))
       = 20 - sumZ (map (fun k => if failed k then accessSize c k else 0)
                        (seqZ 0 (numBlocks c))) /\
     ((forall k, 0 <= k < numBlocks c -> failed k = false) ->
        sumZ (map bytes (blockStats st')) = 20) /\
     ((exists k, 0 <= k < numBlocks c /\ failed k = true) ->
        sumZ (map bytes (blockStats st')) < 20)) /\
  (forall pattern d1 st' d',
     io_open healthyIO d false = Some d1 ->
     writePass Disk healthyIO c pattern (initState c) d = inr (st', d') ->
     let failed := fun k =>
       writeResult healthyIO c pattern
         (foldl (writeBlock Disk healthyIO c pattern)
            (writeStart Disk healthyIO c pattern (initState c) d d1)
            (seqZ 0 k)) k <? 0 in
     sumZ (map bytes (blockStats st'))
       = 20 - sumZ (map (fun k => if failed k then accessSize c k else 0)
                        (seqZ 0 (numBlocks c))) /\
     ((forall k, 0 <= k < numBlocks c -> failed k = false) ->
        sumZ (map bytes (blockStats st')) = 20) /\
     ((exists k, 0 <= k < numBlocks c /\ failed k = true) ->
        sumZ (map bytes (blockStats st')) < 20)).
Proof.
  intros c d. split; [reflexivity|].
  apply (pass_bytes_sum Disk healthyIO 8 20 [0] c (initState c) d);
    [reflexivity|lia|lia|unfold W64; lia].
Defined.

Lemma short_transfer_counted_witness :
  let c := mkConfig 16 16 1 [85] in
  let s := mkLoop (initState c) (mkDisk (repeat 85 16) 0) (repeat 0 16)
                  (repeat 85 16) 0%Q in
  (exists e : bool, (Some 85 = None -> e = false) /\
    blockStats (lp_st (readBlock Disk shortIO c (Some 85) s 0))
      = alter (addTransfer 1 (accessSize c 0)) (Z.to_nat 0)
          (if e then alter addError (Z.to_nat 0) (blockStats (lp_st s))
           else blockStats (lp_st s)) /\
    totalRead (lp_st (readBlock Disk shortIO c (Some 85) s 0))
      = addTransfer 1 (accessSize c 0)
          (if e then addError (totalRead (lp_st s)) else totalRead (lp_st s)) /\
    totalWrite (lp_st (readBlock Disk shortIO c (Some 85) s 0))
      = totalWrite (lp_st s)) /\
  (blockStats (lp_st (writeBlock Disk shortIO c 85 s 0))
     = alter (addTransfer 1 (accessSize c 0)) (Z.to_nat 0) (blockStats (lp_st s)) /\
   totalWrite (lp_st (writeBlock Disk shortIO c 85 s 0))
     = addTransfer 1 (accessSize c 0) (totalWrite (lp_st s)) /\
   totalRead (lp_st (writeBlock Disk shortIO c 85 s 0))
     = totalRead (lp_st s)).
Proof.
  intros c s.
  apply (short_transfer_counted Disk shortIO c (Some 85) 85 s 0
           (mkDisk (repeat 85 16) 0) 0 [] 1 (mkDisk (repeat 85 16) 0) 0 1);
    [reflexivity|split; [lia|reflexivity]|reflexivity
    |split; [lia|reflexivity]].
Defined.

Lemma readPass_without_pattern_witness :
  let c := mkConfig 16 10 1 [0] in
  let d := mkDisk (repeat 0 10) 0 in
  (ub (lp_st (foldl (readBlock Disk healthyIO c None)
                (readStart Disk healthyIO c None (initState c) d d)
                (seqZ 0 (numBlocks c)))) = true /\
   ((exists st' d', readPass Disk healthyIO c None (initState c) d
                      = inr (st', d') /\ ub st' = true) \/
    readPass Disk healthyIO c None (initState c) d = inl OutfileOpenError)) /\
  (forall (s : Loop Disk) (i : Z) d' r data el,
     io_read healthyIO (lp_dev s) (accessSize c i) = (d', r, data, el) ->
     let st0 := lp_st s in
     let st1 := lp_st (readBlock Disk healthyIO c None s i) in
     if r <? 0 then
       blockStats st1 = alter addError (Z.to_nat i) (blockStats st0) /\
       totalRead st1 = addError (totalRead st0)
     else
       blockStats st1
         = alter (addTransfer el (accessSize c i)) (Z.to_nat i)
                 (blockStats st0) /\
       totalRead st1 = addTransfer el (accessSize c i) (totalRead st0)).
Proof.
  intros c d. apply (readPass_without_pattern Disk healthyIO c (initState c)
                     d d).
  reflexivity.
Defined.

Lemma empty_device_rejected_witness :
  scanbadblocks healthyIO 4 0 [0] false (mkDisk [] 0) = inl CannotDetermineSize.
Proof. apply (empty_device_rejected Disk healthyIO 4 [0] false). lia. Defined.

(** * Further properties of the checker *)

(** ** Progress line *)

(** Lines 192-197 and 228: every printed progress line is at a call time,
    the first one at least 0.5 s after the start of the pass, and each one
    at least 0.5 s after the previous one, whatever the clock does. *)
Theorem progress_rate_limited (start : Q) (times : list Q) :
  progressEmissions start times `sublist_of` times /\
  forall k t1 t2, (start :: progressEmissions start times) !! k = Some t1 ->
    (start :: progressEmissions start times) !! S k = Some t2 ->
    (t1 + (1 # 2) <= t2)%Q.
Proof.
  revert start. induction times as [|t times IH]; intros start; simpl.
  - split; [constructor|]. intros [|k] t1 t2 _ H; discriminate.
  - destruct (Qlt_le_dec (t - start) (1 # 2)) as [Hlt|Hge].
    + destruct (IH start) as [Hsub Hgap]. split; [by apply sublist_cons|].
      exact Hgap.
    + destruct (IH t) as [Hsub Hgap]. split; [by apply sublist_skip|].
      intros [|k] t1 t2 H1 H2.
      * simpl in H1, H2. injection H1 as <-. injection H2 as <-.
        rewrite <- (Qplus_le_r _ _ start) in Hge.
        apply (Qle_trans _ _ _ Hge). apply Qle_lteq. right. ring.
      * exact (Hgap k t1 t2 H1 H2).
Qed.

Lemma Q_percent_bounds (a b : Z) :
  0 <= a < b -> (0 <= inject_Z a / inject_Z b * 100 < 100)%Q.
Proof.
  intros Hab. destruct b as [|p|p]; [lia| |lia].
  unfold Qdiv, Qinv, inject_Z, Qmult, Qle, Qlt. simpl. split; nia.
Qed.

(** Line 214: the percentage of the progress line lies in [0, 100) at
    every block of every pass of a run, i.e. when [numPasses] is 1 (read
    only) or even (two passes per pattern), [passIndex < numPasses] and
    [blockIndex < numBlocks]. *)
Theorem progress_percent_bounds (c : Config) (st : State) (blockIndex : Z) :
  0 < blockSize c -> 0 <= blockIndex < numBlocks c ->
  0 <= passIndex st < numPasses st ->
  numPasses st = 1 \/ Z.even (numPasses st) = true ->
  (0 <= pr_percent (progressValues c st blockIndex) < 100)%Q.
Proof.
  intros Hbs Hbi Hpi Hnp. unfold progressValues. cbn [pr_percent].
  set (n := numBlocks c) in *. set (bs := blockSize c) in *.
  set (pi := passIndex st) in *. set (np := numPasses st) in *.
  destruct (Z.ltb_spec 1 np) as [H1|H1].
  - destruct Hnp as [Hnp|Hev]; [lia|].
    apply Zeven_bool_iff, Zeven_ex in Hev as [k Hk].
    rewrite Hk. replace (2 * k / 2) with k
      by (rewrite Z.mul_comm, Z.div_mul; lia).
    rewrite <- !inject_Z_mult, <- !inject_Z_plus.
    apply Q_percent_bounds.
    assert (pi + 1 <= 2 * k) by lia. assert (0 <= pi) by lia.
    assert (bi1 : blockIndex * bs < n * bs) by nia.
    assert ((pi + 1) * (n * bs) <= 2 * k * (n * bs)) by nia. nia.
  - assert (np = 1) by lia. assert (pi = 0) by lia.
    rewrite <- !inject_Z_mult, <- !inject_Z_plus.
    replace (inject_Z (n * bs) + 0)%Q with (inject_Z (n * bs + 0))
      by (rewrite inject_Z_plus; reflexivity).
    apply Q_percent_bounds. nia.
Qed.

(** ** Pattern generator *)

Lemma initBlock_shape (buffer : list Z) (blockIndex pattern : Z) :
  (8 <= length buffer)%nat ->
  initBlock buffer blockIndex pattern
  = map (patternByte pattern blockIndex) (seqZ 0 8) ++ drop 8 buffer.
Proof.
  intros Hlen.
  do 8 (destruct buffer as [|? buffer]; [simpl in Hlen; lia|]).
  reflexivity.
Qed.

(** [initBlock] stores exactly the 8-byte block header: on a buffer of
    at least 8 bytes it keeps the length, replaces bytes 0 to 7 by the
    encoded index, and leaves every byte from index 8 on as it was (so a
    buffer filled with the pattern keeps the pattern there). *)
Theorem initBlock_header_only (buffer : list Z) (blockIndex pattern : Z) :
  (8 <= length buffer)%nat ->
  length (initBlock buffer blockIndex pattern) = length buffer /\
  take 8 (initBlock buffer blockIndex pattern)
    = map (patternByte pattern blockIndex) (seqZ 0 8) /\
  drop 8 (initBlock buffer blockIndex pattern) = drop 8 buffer.
Proof.
  intros Hlen. rewrite initBlock_shape by done.
  assert (Hm : length (map (patternByte pattern blockIndex) (seqZ 0 8)) = 8%nat)
    by reflexivity.
  split; [|split].
  - rewrite length_app, Hm, length_drop. lia.
  - rewrite take_app_length' by done. reflexivity.
  - rewrite drop_app_length' by done. reflexivity.
Qed.

(** ** Pass sequencing *)

Section Frame.

Variable D : Type.
Variable io : IO D.
Variable c : Config.

Lemma readBlock_frame (pattern : option Z) (s : Loop D) (i : Z) :
  frame (lp_st (readBlock D io c pattern s i)) = frame (lp_st s).
Proof.
  unfold readBlock. destruct (deref pattern).
  destruct (io_read io _ _) as [[[d' r] data] el].
  destruct (r <? 0); [|destruct pattern; [destruct (firstMismatch _ _)|]];
    progress_step; reflexivity.
Qed.

Lemma writeBlock_frame (pattern : Z) (s : Loop D) (i : Z) :
  frame (lp_st (writeBlock D io c pattern s i)) = frame (lp_st s).
Proof.
  unfold writeBlock. destruct (io_write io _ _) as [[d' r] el].
  destruct (r <? 0); progress_step; reflexivity.
Qed.

Lemma foldl_frame (step : Loop D -> Z -> Loop D) (l : list Z) (s : Loop D) :
  (forall s i, frame (lp_st (step s i)) = frame (lp_st s)) ->
  frame (lp_st (foldl step s l)) = frame (lp_st s).
Proof.
  intros Hstep. revert s. induction l as [|i l IH]; intros s; simpl; [done|].
  by rewrite IH, Hstep.
Qed.

Lemma readPass_frame (pattern : option Z) (st : State) (d d1 : D) :
  (forall d r k, io_outfile io d r k = true) ->
  io_open io d true = Some d1 ->
  exists st' d', readPass D io c pattern st d = inr (st', d') /\
    passIndex st' = passIndex st + 1 /\ numPasses st' = numPasses st /\
    map rp_read (reports st') = map rp_read (reports st) ++ [true].
Proof.
  intros Hout Ho. unfold readPass, passEnd. rewrite Ho, Hout.
  do 2 eexists. split; [reflexivity|].
  match goal with |- context [foldl ?f ?s ?l] =>
    pose proof (foldl_frame f l s (readBlock_frame pattern)) as Hf end.
  unfold readStart in Hf |- *. destruct (deref pattern) as [u p].
  unfold frame in Hf. injection Hf as Hp Hn Hr.
  cbn [nextPass printPassStats passIndex numPasses reports].
  rewrite Hp, Hn, Hr, map_app. repeat split; reflexivity.
Qed.

Lemma writePass_frame (pattern : Z) (st : State) (d d1 : D) :
  (forall d r k, io_outfile io d r k = true) ->
  io_open io d false = Some d1 ->
  exists st' d', writePass D io c pattern st d = inr (st', d') /\
    passIndex st' = passIndex st + 1 /\ numPasses st' = numPasses st /\
    map rp_read (reports st') = map rp_read (reports st) ++ [false].
Proof.
  intros Hout Ho. unfold writePass, passEnd. rewrite Ho, Hout.
  do 2 eexists. split; [reflexivity|].
  match goal with |- context [foldl ?f ?s ?l] =>
    pose proof (foldl_frame f l s (writeBlock_frame pattern)) as Hf end.
  unfold frame in Hf. injection Hf as Hp Hn Hr.
  cbn [nextPass printPassStats passIndex numPasses reports].
  rewrite Hp, Hn, Hr, map_app. repeat split; reflexivity.
Qed.

Lemma writeReadLoop_frame (pats : list Z) (st : State) (d : D) :
  (forall d r k, io_outfile io d r k = true) ->
  (forall d b, io_open io d b <> None) ->
  exists st' d', writeReadLoop D io c pats st d = inr (st', d') /\
    passIndex st' = passIndex st + 2 * Z.of_nat (length pats) /\
    numPasses st' = numPasses st /\
    map rp_read (reports st')
      = map rp_read (reports st) ++ concat (repeat [false; true] (length pats)).
Proof.
  intros Hout Ho. revert st d. induction pats as [|p pats IH]; intros st d.
  - exists st, d. simpl. rewrite app_nil_r. repeat split; lia.
  - destruct (io_open io d false) as [d1|] eqn:E1;
      [|exfalso; exact (Ho d false E1)].
    destruct (writePass_frame p st d d1 Hout E1) as (st1 & d1' & Hw & Hp1 & Hn1 & Hr1).
    destruct (io_open io d1' true) as [d2|] eqn:E2;
      [|exfalso; exact (Ho d1' true E2)].
    destruct (readPass_frame (Some p) st1 d1' d2 Hout E2)
      as (st2 & d2' & Hrd & Hp2 & Hn2 & Hr2).
    destruct (IH st2 d2') as (st3 & d3 & Hl & Hp3 & Hn3 & Hr3).
    exists st3, d3. simpl. rewrite Hw, Hrd, Hl.
    split; [done|]. split; [lia|]. split; [lia|].
    rewrite Hr3, Hr2, Hr1, <- !app_assoc. reflexivity.
Qed.

Lemma readPass_inr_frame (pattern : option Z) (st : State) (d : D)
  (st' : State) (d' : D) :
  readPass D io c pattern st d = inr (st', d') ->
  passIndex st' = passIndex st + 1 /\ numPasses st' = numPasses st.
Proof.
  unfold readPass, passEnd.
  destruct (io_open io d true) as [d1|]; [|discriminate].
  destruct (io_outfile _ _ _ _); [|discriminate]. intros H. injection H as <- _.
  match goal with |- context [foldl ?f ?s ?l] =>
    pose proof (foldl_frame f l s (readBlock_frame pattern)) as Hf end.
  unfold readStart in Hf |- *. destruct (deref pattern) as [u p].
  unfold frame in Hf. injection Hf as Hp Hn _.
  cbn [nextPass printPassStats passIndex numPasses]. rewrite Hp, Hn.
  split; reflexivity.
Qed.

Lemma writePass_inr_frame (pattern : Z) (st : State) (d : D)
  (st' : State) (d' : D) :
  writePass D io c pattern st d = inr (st', d') ->
  passIndex st' = passIndex st + 1 /\ numPasses st' = numPasses st.
Proof.
  unfold writePass, passEnd.
  destruct (io_open io d false) as [d1|]; [|discriminate].
  destruct (io_outfile _ _ _ _); [|discriminate]. intros H. injection H as <- _.
  match goal with |- context [foldl ?f ?s ?l] =>
    pose proof (foldl_frame f l s (writeBlock_frame pattern)) as Hf end.
  unfold frame in Hf. injection Hf as Hp Hn _.
  cbn [nextPass printPassStats passIndex numPasses]. rewrite Hp, Hn.
  split; reflexivity.
Qed.

Lemma progressPatternOob_frame (st st' : State) :
  frame st' = frame st -> progressPatternOob c st' = progressPatternOob c st.
Proof.
  unfold frame, progressPatternOob. intros H. injection H as Hp Hn _.
  by rewrite Hp, Hn.
Qed.

(** With such a clock, the first block of a read pass prints a progress
    line, which reads [patterns[passIndex]] (line 203). *)
Lemma readPass_tick_ub (pattern : option Z) (st : State) (d : D)
  (st' : State) (d' : D) :
  tickingReads D io -> 0 < numBlocks c -> progressPatternOob c st = true ->
  readPass D io c pattern st d = inr (st', d') -> ub st' = true.
Proof.
  intros [Hto Htr] Hn Hoob. unfold readPass, passEnd.
  destruct (io_open io d true) as [d1|] eqn:Eo; [|discriminate].
  destruct (io_outfile _ _ _ _); [|discriminate]. intros H. injection H as <- _.
  cbn [nextPass printPassStats ub]. apply orb_true_intro. left.
  rewrite seqZ_cons by lia. cbn [foldl]. apply foldl_readBlock_ub.
  unfold readBlock, readStart. destruct (deref pattern) as [u p].
  cbn [lp_dev lp_lastProgressTime lp_st lp_expected lp_buffer].
  pose proof (Htr d1 (accessSize c 0)) as Ht. pose proof (Hto d true d1 Eo) as Ho.
  destruct (io_read io d1 (accessSize c 0)) as [[[d2 r] data] el].
  cbn [fst] in Ht. unfold printProgress.
  destruct (Qlt_le_dec (io_time io d2 - io_time io d) (1 # 2)) as [Hlt|_];
    [exfalso; lra|].
  destruct (r <? 0); [|destruct pattern; [destruct (firstMismatch _ _)|]];
    cbn [lp_st ub flagUb];
    (rewrite (progressPatternOob_frame st) by reflexivity);
    rewrite Hoob; apply orb_true_r.
Qed.

(** With such a clock and at least one block, the last pass of the
    write/read loop, a read pass whose index [passIndex] is out of the
    range of [patterns], executes the out-of-range read of line 203. *)
Lemma writeReadLoop_tick_ub (l : list Z) (p : Z) (st : State) (d : D)
  (st' : State) (d' : D) :
  tickingReads D io -> 0 < numBlocks c -> 1 < numPasses st ->
  patterns c !! Z.to_nat (passIndex st + 2 * Z.of_nat (length (p :: l)) - 1)
    = None ->
  writeReadLoop D io c (p :: l) st d = inr (st', d') -> ub st' = true.
Proof.
  intros Htick Hn. revert p st d.
  induction l as [|p' l IH]; intros p st d Hnp Hidx H;
    cbn [writeReadLoop] in H;
    (destruct (writePass D io c p st d) as [|[st1 d1]] eqn:Ew; [discriminate|]);
    (destruct (readPass D io c (Some p) st1 d1) as [|[st2 d2]] eqn:Er;
      [discriminate|]);
    destruct (writePass_inr_frame _ _ _ _ _ Ew) as [Hp1 Hn1].
  - injection H as <- _.
    apply (readPass_tick_ub (Some p) st1 d1 st2 d2 Htick Hn); [|exact Er].
    unfold progressPatternOob, progressHead. rewrite Hn1, Hp1.
    destruct (Z.ltb_spec 1 (numPasses st)); [|lia].
    replace (passIndex st + 1)
      with (passIndex st + 2 * Z.of_nat (length [p]) - 1) by (simpl; lia).
    by rewrite Hidx.
  - destruct (readPass_inr_frame _ _ _ _ _ Er) as [Hp2 Hn2].
    apply (IH p' st2 d2); [lia| |exact H].
    replace (passIndex st2 + 2 * Z.of_nat (length (p' :: l)) - 1)
      with (passIndex st + 2 * Z.of_nat (length (p :: p' :: l)) - 1)
      by (cbn [length]; lia).
    exact Hidx.
Qed.

End Frame.

(** [checkWriteRead] (lines 55-65) on a device that always opens and on
    which every CSV export of [printPassStats] can create its file: it runs
    a write pass then a read pass for each pattern, in this order, so that
    it adds one write report and one read report per pattern, advances
    [passIndex] by twice the number of patterns and leaves [numPasses] at
    twice that number. The passes of index [patterns.size()] and above
    read [patterns[passIndex]] out of range whenever they print a progress
    line (line 203): with a clock under which every [read] takes at least
    0.5 s, a run from [passIndex >= 0] over at least one block and one
    pattern executes that undefined behaviour. *)
Theorem checkWriteRead_passes (D : Type) (io : IO D) (c : Config)
  (st : State) (d : D) :
  (forall d r k, io_outfile io d r k = true) ->
  (forall d b, io_open io d b <> None) ->
  exists st' d', checkWriteRead D io c st d = inr (st', d') /\
    numPasses st' = 2 * Z.of_nat (length (patterns c)) /\
    passIndex st' = passIndex st + 2 * Z.of_nat (length (patterns c)) /\
    map rp_read (reports st')
      = map rp_read (reports st)
        ++ concat (repeat [false; true] (length (patterns c))) /\
    (tickingReads D io -> patterns c <> [] -> 0 < numBlocks c ->
     0 <= passIndex st -> ub st' = true).
Proof.
  intros Hout Ho. unfold checkWriteRead.
  destruct (writeReadLoop_frame D io c (patterns c)
              (setNumPasses (Z.of_nat (length (patterns c)) * 2) st) d Hout Ho)
    as (st' & d' & Hl & Hp & Hn & Hr).
  exists st', d'. rewrite Hl. simpl in Hp, Hn, Hr.
  split; [done|]. split; [lia|]. split; [lia|]. split; [done|].
  intros Htick Hne Hnb Hpi.
  destruct (patterns c) as [|p l] eqn:Ep; [done|].
  apply (writeReadLoop_tick_ub D io c l p
           (setNumPasses (Z.of_nat (length (p :: l)) * 2) st) d st' d' Htick Hnb).
  - cbn [setNumPasses numPasses length]. lia.
  - cbn [setNumPasses passIndex]. rewrite Ep. apply lookup_ge_None_2.
    cbn [length] in *. lia.
  - exact Hl.
Qed.

(** [checkReadOnly] (lines 47-53) on a device that opens for reading and
    on which the CSV export can create its file: exactly one pass, a read
    pass, with [numPasses = 1]; that pass dereferences the empty
    [pattern] (lines 96 and 100), so the run executes undefined
    behaviour. *)
Theorem checkReadOnly_pass (D : Type) (io : IO D) (c : Config)
  (st : State) (d d1 : D) :
  (forall d r k, io_outfile io d r k = true) ->
  io_open io d true = Some d1 ->
  exists st' d', checkReadOnly D io c st d = inr (st', d') /\
    numPasses st' = 1 /\ passIndex st' = passIndex st + 1 /\
    map rp_read (reports st') = map rp_read (reports st) ++ [true] /\
    ub st' = true.
Proof.
  intros Hout Ho. unfold checkReadOnly.
  destruct (readPass_frame D io c None (setNumPasses 1 st) d d1 Hout Ho)
    as (st' & d' & Hr & Hp & Hn & Hrep).
  exists st', d'. rewrite Hr. simpl in Hp, Hn, Hrep.
  split; [done|]. split; [done|]. split; [done|]. split; [done|].
  revert Hr. unfold readPass, passEnd. rewrite Ho, Hout.
  intros H. injection H as <- _.
  cbn [nextPass printPassStats ub]. rewrite foldl_readBlock_ub; [done|].
  simpl. apply orb_true_r.
Qed.

(** A failing [open] throws (lines 90-93 and 151-154): a pass on a device
    that cannot be opened ends the run with the open error, and so does
    the write/read loop as soon as there is a pattern; with no pattern the
    loop runs no pass and only sets [numPasses] to 0. *)
Theorem open_failure_aborts (D : Type) (io : IO D) (c : Config)
  (st : State) (d : D) :
  (forall d b, io_open io d b = None) ->
  (forall pattern, readPass D io c pattern st d = inl DeviceOpenError) /\
  (forall pattern, writePass D io c pattern st d = inl DeviceOpenError) /\
  checkReadOnly D io c st d = inl DeviceOpenError /\
  checkWriteRead D io c st d
    = match patterns c with
      | [] => inr (setNumPasses 0 st, d)
      | _ => inl DeviceOpenError
      end.
Proof.
  intros Ho. unfold checkReadOnly, checkWriteRead, readPass, writePass.
  rewrite !Ho. repeat split.
  destruct (patterns c) as [|p pats]; simpl; [reflexivity|].
  unfold writePass. by rewrite Ho.
Qed.

(** ** Direction of the device accesses *)

Lemma readBlock_io_read (D : Type) (io1 io2 : IO D) (c : Config)
  (pattern : option Z) (s : Loop D) (i : Z) :
  (forall d n, io_read io1 d n = io_read io2 d n) ->
  (forall d, io_time io1 d = io_time io2 d) ->
  readBlock D io1 c pattern s i = readBlock D io2 c pattern s i.
Proof.
  intros Hr Ht. unfold readBlock. rewrite Hr. destruct (deref pattern).
  destruct (io_read io2 _ _) as [[[d' r] data] el]. cbv beta iota zeta.
  by rewrite Ht.
Qed.

(** A read pass, and so the read-only mode, never writes: its result
    depends only on how the device opens for reading ([O_RDONLY]), reads
    and closes, on the clock of the progress lines and on the CSV export,
    not on [write] nor on opening for writing. *)
Theorem readPass_never_writes (D : Type) (io1 io2 : IO D) (c : Config)
  (st : State) (d : D) :
  (forall d, io_open io1 d true = io_open io2 d true) ->
  (forall d n, io_read io1 d n = io_read io2 d n) ->
  (forall d, io_close io1 d = io_close io2 d) ->
  (forall d, io_time io1 d = io_time io2 d) ->
  (forall d r k, io_outfile io1 d r k = io_outfile io2 d r k) ->
  (forall pattern, readPass D io1 c pattern st d = readPass D io2 c pattern st d) /\
  checkReadOnly D io1 c st d = checkReadOnly D io2 c st d.
Proof.
  intros Ho Hr Hc Ht Hf.
  assert (H : forall pattern st, readPass D io1 c pattern st d
                                 = readPass D io2 c pattern st d).
  { intros pattern st'. unfold readPass. rewrite Ho.
    destruct (io_open io2 d true) as [d1|]; [|done].
    assert (Hs : readStart D io1 c pattern st' d d1
                 = readStart D io2 c pattern st' d d1)
      by (unfold readStart; by rewrite Ht).
    rewrite Hs. generalize (readStart D io2 c pattern st' d d1) as s.
    intros s.
    assert (Hl : forall l s, foldl (readBlock D io1 c pattern) s l
                             = foldl (readBlock D io2 c pattern) s l).
    { induction l as [|i l IH]; intros s'; simpl; [done|].
      rewrite (readBlock_io_read D io1 io2) by done. apply IH. }
    rewrite Hl. unfold passEnd. by rewrite Hc, Hf. }
  split; [intros; apply H|]. unfold checkReadOnly. apply H.
Qed.

(** ** Error accounting of a pass *)

Lemma readBlock_errorStep (D : Type) (io : IO D) (c : Config)
  (pattern : option Z) (s : Loop D) (i : Z) :
  errorStep totalRead totalWrite s (readBlock D io c pattern s i) i.
Proof.
  unfold readBlock, errorStep. destruct (deref pattern) as [u p].
  destruct (io_read io _ _) as [[[d' r] data] el].
  destruct (r <? 0).
  - exists true. progress_step. cbn [lp_st blockStats totalRead totalWrite mapTotalRead
                      mapBlock setBlockStats flagUb].
    split; [|split; reflexivity]. by apply map_alter.
  - assert (Hsame : forall l, map errors
        (alter (addTransfer el (accessSize c i)) (Z.to_nat i) l)
        = map errors l) by (intros; by apply map_alter_same).
    destruct pattern; [destruct (firstMismatch _ _)|].
    + exists true. progress_step. cbn [lp_st blockStats totalRead totalWrite mapTotalRead
                        mapBlock setBlockStats flagUb].
      rewrite Hsame. split; [|split; reflexivity]. by apply map_alter.
    + exists false. progress_step. cbn [lp_st blockStats totalRead totalWrite mapTotalRead
                         mapBlock setBlockStats flagUb].
      rewrite Hsame. repeat split.
    + exists false. progress_step. cbn [lp_st blockStats totalRead totalWrite mapTotalRead
                         mapBlock setBlockStats flagUb].
      rewrite Hsame. repeat split.
Qed.

Lemma writeBlock_errorStep (D : Type) (io : IO D) (c : Config)
  (pattern : Z) (s : Loop D) (i : Z) :
  errorStep totalWrite totalRead s (writeBlock D io c pattern s i) i.
Proof.
  unfold writeBlock, errorStep. destruct (io_write io _ _) as [[d' r] el].
  destruct (r <? 0).
  - exists true. progress_step. cbn [lp_st blockStats totalRead totalWrite mapTotalWrite
                      mapBlock setBlockStats flagUb].
    split; [|split; reflexivity]. by apply map_alter.
  - exists false. progress_step. cbn [lp_st blockStats totalRead totalWrite mapTotalWrite
                       mapBlock setBlockStats flagUb].
    split; [|split; reflexivity]. by apply map_alter_same.
Qed.

Lemma foldl_errors (D : Type) (step : Loop D -> Z -> Loop D)
  (tot oth : State -> BlockStats) (n : Z) (s0 : Loop D) :
  0 <= n ->
  (forall s i, errorStep tot oth s (step s i) i) ->
  map errors (blockStats (lp_st s0)) = repeat 0 (Z.to_nat n) ->
  0 <= errors (tot (lp_st s0)) < W64 ->
  let s := foldl step s0 (seqZ 0 n) in
  Forall (fun e => e = 0 \/ e = 1) (map errors (blockStats (lp_st s))) /\
  length (blockStats (lp_st s)) = Z.to_nat n /\
  errors (tot (lp_st s))
    = wrap (errors (tot (lp_st s0)) + sumZ (map errors (blockStats (lp_st s)))) /\
  oth (lp_st s) = oth (lp_st s0).
Proof.
  intros Hn Hstep H0 HE.
  assert (Hk : forall k : nat, (k <= Z.to_nat n)%nat ->
    exists l, length l = k /\ Forall (fun e => e = 0 \/ e = 1) l /\
      map errors (blockStats (lp_st (foldl step s0 (seqZ 0 (Z.of_nat k)))))
        = l ++ repeat 0 (Z.to_nat n - k)%nat /\
      errors (tot (lp_st (foldl step s0 (seqZ 0 (Z.of_nat k)))))
        = wrap (errors (tot (lp_st s0)) + sumZ l) /\
      oth (lp_st (foldl step s0 (seqZ 0 (Z.of_nat k)))) = oth (lp_st s0)).
  { induction k as [|k IH]; intros Hle.
    - exists []. simpl. rewrite H0, Nat.sub_0_r.
      repeat split; [constructor|]. rewrite wrap_small; lia.
    - destruct IH as (l & Hl & Hf & Hm & Ht & Ho); [lia|].
      rewrite seqZ_S, foldl_app. simpl foldl. rewrite !Z.add_0_l.
      set (s := foldl step s0 (seqZ 0 (Z.of_nat k))) in *.
      destruct (Hstep s (Z.of_nat k)) as (e & He & Hte & Hoe).
      replace (Z.to_nat n - k)%nat with (S (Z.to_nat n - S k))%nat
        in Hm by lia.
      simpl repeat in Hm. rewrite Nat2Z.id in He.
      destruct e.
      + exists (l ++ [1]). rewrite He, Hte, Hoe, Hm, <- Hl, alter_middle.
        rewrite length_app, <- app_assoc, Ht, sumZ_app. simpl.
        split; [lia|]. split; [apply Forall_app; auto|].
        split; [reflexivity|]. split; [|done].
        unfold wrap. rewrite Zplus_mod_idemp_l. f_equal. unfold sumZ. lia.
      + exists (l ++ [0]). rewrite He, Hte, Hoe, Hm, Ht, sumZ_app.
        rewrite length_app, <- app_assoc. simpl.
        split; [lia|]. split; [apply Forall_app; auto|].
        split; [reflexivity|]. split; [|done]. f_equal. unfold sumZ. lia. }
  destruct (Hk (Z.to_nat n) ltac:(lia)) as (l & Hl & Hf & Hm & Ht & Ho).
  rewrite Z2Nat.id in Hm, Ht, Ho by lia.
  rewrite Nat.sub_diag, app_nil_r in Hm. cbv zeta. rewrite Hm.
  split; [exact Hf|]. split; [|auto].
  rewrite <- Hl, <- Hm. by rewrite length_map.
Qed.

Lemma int32_mod (z : Z) : int32 z mod 2 ^ 32 = z mod 2 ^ 32.
Proof.
  unfold int32. pose proof (Z.mod_pos_bound z (2 ^ 32) ltac:(lia)).
  destruct (Z.ltb_spec (z mod 2 ^ 32) (2 ^ 31)).
  - apply Z.mod_mod. lia.
  - rewrite <- (Z.mod_add _ 1) by lia. rewrite Z.mul_1_l, Z.sub_add.
    apply Z.mod_mod. lia.
Qed.

Lemma int32_eq (z1 z2 : Z) :
  z1 mod 2 ^ 32 = z2 mod 2 ^ 32 -> int32 z1 = int32 z2.
Proof. unfold int32. intros H. by rewrite H. Qed.

Lemma int32_wrap (z : Z) : int32 (wrap z) = int32 z.
Proof.
  apply int32_eq. unfold wrap, W64.
  apply Z.mod_mod_divide. exists (2 ^ 32). reflexivity.
Qed.

Lemma int32_small (z : Z) : 0 <= z < 2 ^ 31 -> int32 z = z.
Proof.
  intros Hz. unfold int32. rewrite Z.mod_small by lia.
  destruct (Z.ltb_spec z (2 ^ 31)); lia.
Qed.

(** The [int] accumulation of line 274. *)
Lemma fold_left_errors (s : list BlockStats) (a : Z) :
  fold_left (fun acc r => int32 (wrap (acc + errors r))) s (int32 a)
  = int32 (a + sumZ (map errors s)).
Proof.
  revert a. induction s as [|b s IH]; intros a; simpl.
  - f_equal. unfold sumZ. simpl. lia.
  - rewrite int32_wrap.
    rewrite (int32_eq (int32 a + errors b) (a + errors b)).
    + rewrite IH. f_equal. unfold sumZ. simpl. lia.
    + rewrite Zplus_mod, int32_mod, <- Zplus_mod. reflexivity.
Qed.

Lemma sumZ_01 (l : list Z) :
  Forall (fun e => e = 0 \/ e = 1) l -> 0 <= sumZ l <= Z.of_nat (length l).
Proof.
  induction 1 as [|x l Hx _ IH]; [simpl; lia|].
  rewrite sumZ_cons. cbn [length]. lia.
Qed.

Lemma map_errors_zero (n : nat) : map errors (repeat zeroStats n) = repeat 0 n.
Proof. induction n as [|n IH]; simpl; [done|]. by rewrite IH. Qed.

Lemma printPassStats_errors (c : Config) (read : bool) (st : State)
  (E0 : Z) :
  Forall (fun e => e = 0 \/ e = 1) (map errors (blockStats st)) ->
  let st' := nextPass (printPassStats c read st) in
  Forall (fun e => e = 0 \/ e = 1) (map errors (blockStats st')) /\
  wrap (E0 + sumZ (map errors (blockStats st)))
    = wrap (E0 + sumZ (map errors (blockStats st'))) /\
  length (blockStats st') = length (blockStats st) /\
  exists r, reports st' = reports st ++ [r] /\ rp_read r = read /\
    rp_errors r = wrap (int32 (sumZ (map errors (blockStats st')))).
Proof.
  intros Hf. cbn [nextPass printPassStats blockStats reports].
  pose proof (Permutation_map errors (sortByRate_Permutation (blockStats st)))
    as Hp.
  split; [|split; [|split]].
  - rewrite Hp. exact Hf.
  - by rewrite (sumZ_Permutation _ _ Hp).
  - apply Permutation_length, sortByRate_Permutation.
  - eexists. split; [reflexivity|]. split; [reflexivity|].
    unfold passStats. cbn [rp_errors]. f_equal.
    change 0 with (int32 0) at 1. rewrite fold_left_errors. reflexivity.
Qed.

(** Error counting of a completed pass (lines 108-111, 120-125, 171-174
    and 274): every block has at most one error, and the pass added the
    number of blocks with an error to the total error counter of its
    direction (modulo [2^64]); the counter of the other direction is
    unchanged. The pass report's error count is that number accumulated
    in an [int] (line 274: [std::accumulate] with the initial value [0])
    and converted to [size_t], so it is that number when the pass has
    fewer than [2^31] blocks. *)
Theorem pass_error_accounting (D : Type) (io : IO D) (c : Config)
  (st : State) (d : D) :
  0 <= numBlocks c ->
  0 <= errors (totalRead st) < W64 -> 0 <= errors (totalWrite st) < W64 ->
  (forall pattern st' d', readPass D io c pattern st d = inr (st', d') ->
     Forall (fun e => e = 0 \/ e = 1) (map errors (blockStats st')) /\
     errors (totalRead st')
       = wrap (errors (totalRead st) + sumZ (map errors (blockStats st'))) /\
     (exists r, reports st' = reports st ++ [r] /\ rp_read r = true /\
        rp_errors r = wrap (int32 (sumZ (map errors (blockStats st')))) /\
        (numBlocks c < 2 ^ 31 ->
           rp_errors r = sumZ (map errors (blockStats st')))) /\
     totalWrite st' = totalWrite st) /\
  (forall pattern st' d', writePass D io c pattern st d = inr (st', d') ->
     Forall (fun e => e = 0 \/ e = 1) (map errors (blockStats st')) /\
     errors (totalWrite st')
       = wrap (errors (totalWrite st) + sumZ (map errors (blockStats st'))) /\
     (exists r, reports st' = reports st ++ [r] /\ rp_read r = false /\
        rp_errors r = wrap (int32 (sumZ (map errors (blockStats st')))) /\
        (numBlocks c < 2 ^ 31 ->
           rp_errors r = sumZ (map errors (blockStats st')))) /\
     totalRead st' = totalRead st).
Proof.
  intros Hn HR HW.
  assert (Hsmall : forall l : list Z,
    Forall (fun e => e = 0 \/ e = 1) l -> length l = Z.to_nat (numBlocks c) ->
    numBlocks c < 2 ^ 31 -> wrap (int32 (sumZ l)) = sumZ l).
  { intros l Hl Hlen Hlt. pose proof (sumZ_01 l Hl) as Hb. rewrite Hlen in Hb.
    rewrite int32_small by lia. apply wrap_small. unfold W64. lia. }
  split; intros pattern st' d'.
  - unfold readPass, passEnd.
    destruct (io_open io d true) as [d1|]; [|discriminate].
    destruct (io_outfile _ _ _ _); [|discriminate].
    intros H. injection H as <- _.
    match goal with |- context [foldl ?f ?s ?l] =>
      destruct (foldl_errors D f totalRead totalWrite (numBlocks c) s Hn
                  (readBlock_errorStep D io c pattern))
        as (Hf & Hlen & Ht & Ho);
      [unfold readStart; destruct (deref pattern); apply map_errors_zero
      |unfold readStart; destruct (deref pattern); exact HR|];
      destruct (printPassStats_errors c true (lp_st (foldl f s l))
                  (errors (totalRead st)) Hf)
        as (Hf' & Hs & Hlen' & r & Hr & Hrr & Hre);
      pose proof (foldl_frame D f l s (readBlock_frame D io c pattern)) as Hfr
    end.
    split; [exact Hf'|]. split; [|split].
    + cbn [nextPass printPassStats totalRead]. rewrite Ht, <- Hs.
      unfold readStart. by destruct (deref pattern).
    + exists r. split; [|split; [exact Hrr|split; [exact Hre|]]].
      * rewrite Hr. unfold frame in Hfr. injection Hfr as _ _ Hrep.
        rewrite Hrep. unfold readStart. by destruct (deref pattern).
      * intros Hlt. rewrite Hre. apply Hsmall; [exact Hf'| |exact Hlt].
        rewrite length_map, Hlen', Hlen. reflexivity.
    + cbn [nextPass printPassStats totalWrite]. rewrite Ho.
      unfold readStart. by destruct (deref pattern).
  - unfold writePass, passEnd.
    destruct (io_open io d false) as [d1|]; [|discriminate].
    destruct (io_outfile _ _ _ _); [|discriminate].
    intros H. injection H as <- _.
    match goal with |- context [foldl ?f ?s ?l] =>
      destruct (foldl_errors D f totalWrite totalRead (numBlocks c) s Hn
                  (writeBlock_errorStep D io c pattern))
        as (Hf & Hlen & Ht & Ho);
      [apply map_errors_zero|exact HW|];
      destruct (printPassStats_errors c false (lp_st (foldl f s l))
                  (errors (totalWrite st)) Hf)
        as (Hf' & Hs & Hlen' & r & Hr & Hrr & Hre);
      pose proof (foldl_frame D f l s (writeBlock_frame D io c pattern)) as Hfr
    end.
    split; [exact Hf'|]. split; [|split].
    + cbn [nextPass printPassStats totalWrite]. rewrite Ht, <- Hs.
      reflexivity.
    + exists r. split; [|split; [exact Hrr|split; [exact Hre|]]].
      * rewrite Hr. unfold frame in Hfr. injection Hfr as _ _ Hrep.
        rewrite Hrep. reflexivity.
      * intros Hlt. rewrite Hre. apply Hsmall; [exact Hf'| |exact Hlt].
        rewrite length_map, Hlen', Hlen. reflexivity.
    + cbn [nextPass printPassStats totalRead]. exact Ho.
Qed.

(** ** Read-only run *)

Lemma readBlock_none_totals (D : Type) (io : IO D) (c : Config)
  (s : Loop D) (i : Z) :
  neverFails D io ->
  let st := lp_st s in
  let st' := lp_st (readBlock D io c None s i) in
  errors (totalRead st') = errors (totalRead st) /\
  bytes (totalRead st') = wrap (bytes (totalRead st) + accessSize c i) /\
  totalWrite st' = totalWrite st.
Proof.
  intros [Hr _]. unfold readBlock. simpl deref. cbv zeta.
  destruct (io_read io (lp_dev s) (accessSize c i)) as [[[d' r] data] el]
    eqn:E.
  apply Hr in E. destruct (Z.ltb_spec r 0); [lia|].
  progress_step. repeat split.
Qed.

Lemma foldl_readBlock_none_totals (D : Type) (io : IO D) (c : Config)
  (l : list Z) (s : Loop D) :
  neverFails D io ->
  0 <= bytes (totalRead (lp_st s)) < W64 ->
  let st := lp_st s in
  let st' := lp_st (foldl (readBlock D io c None) s l) in
  errors (totalRead st') = errors (totalRead st) /\
  bytes (totalRead st')
    = wrap (bytes (totalRead st) + sumZ (map (accessSize c) l)) /\
  totalWrite st' = totalWrite st.
Proof.
  intros Hok. revert s. induction l as [|i l IH]; intros s Hb; simpl.
  - repeat split. unfold sumZ. simpl. rewrite Z.add_0_r, wrap_small; lia.
  - destruct (readBlock_none_totals D io c s i Hok) as (He & Hby & Hw).
    destruct (IH (readBlock D io c None s i)) as (He' & Hby' & Hw').
    { rewrite Hby. apply Z.mod_pos_bound. unfold W64. lia. }
    rewrite He', He, Hw', Hw, Hby', Hby. repeat split.
    unfold wrap. rewrite Zplus_mod_idemp_l. f_equal. unfold sumZ. simpl. lia.
Qed.

(** The read-only mode ([checkReadOnly] then [printResult], lines 390
    and 392) on a device that opens for reading, never fails a read and
    on which the CSV export can create its file: no error is counted, the
    read total counts [sizeBytes] bytes, nothing is written, and the
    verdict is "OK" with a write rate of 0; the run has executed the
    dereference of the empty [pattern] (lines 96 and 100). *)
Theorem readOnly_run_ok (D : Type) (io : IO D) (bs sz : Z) (pats : list Z)
  (d : D) :
  0 < bs -> 0 < sz -> sz + bs <= W64 -> neverFails D io ->
  (forall d, io_open io d true <> None) ->
  (forall d r k, io_outfile io d r k = true) ->
  exists st d', scanbadblocks io bs sz pats false d = inr (st, d') /\
    errors (totalRead st) = 0 /\ bytes (totalRead st) = sz /\
    totalWrite st = zeroStats /\
    snd (printResult st) = VerdictOK /\ (snd (fst (printResult st)) == 0)%Q /\
    ub st = true.
Proof.
  intros Hbs Hsz Hnw Hok Ho Hout.
  destruct (accessSizes_geometry bs sz pats Hbs Hsz Hnw) as [_ Hsum].
  unfold scanbadblocks, BlockChecker.
  destruct (Z.eqb_spec bs 0); [lia|]. destruct (Z.eqb_spec sz 0); [lia|].
  set (c := mkConfig bs sz (wrap (sz + bs - 1) / bs) pats) in *.
  unfold checkReadOnly, readPass, passEnd.
  destruct (io_open io d true) as [d1|] eqn:E; [|exfalso; exact (Ho d E)].
  rewrite Hout. unfold readStart. cbn [deref].
  match goal with |- context [foldl ?f ?s ?l] =>
    destruct (foldl_readBlock_none_totals D io c l s Hok) as (He & Hby & Hw);
    [simpl; unfold W64; lia|];
    pose proof (foldl_readBlock_ub D io c None l s ltac:(apply orb_true_r))
      as Hu
  end.
  do 2 eexists. split; [reflexivity|].
  cbn [nextPass printPassStats totalRead totalWrite ub] in *.
  rewrite He, Hby, Hw, Hu. unfold accessSizes in Hsum. fold c in Hsum.
  rewrite Hsum.
  cbn [lp_st flagUb setBlockStats setNumPasses initState totalRead
       totalWrite errors bytes zeroStats].
  rewrite Z.add_0_l, wrap_small by lia. repeat split;
    unfold printResult; cbn [fst snd nextPass printPassStats totalRead
                             totalWrite]; rewrite ?He, Hw; reflexivity.
Qed.

(** ** Device contents on a healthy disk *)

Lemma lookup_nth_Some {A} (l : list A) (j : nat) (d : A) :
  (j < length l)%nat -> l !! j = Some (nth j l d).
Proof.
  intros Hj. destruct (lookup_lt_is_Some_2 l j Hj) as [v Hv].
  rewrite Hv. f_equal. symmetry. by apply nth_lookup_Some.
Qed.

Lemma drop_repeat {A} (x : A) (n m : nat) :
  drop n (repeat x m) = repeat x (m - n).
Proof.
  revert m. induction n as [|n IH]; intros [|m]; simpl; done.
Qed.

Lemma firstMismatch_refl (l : list Z) : firstMismatch l l = false.
Proof. induction l as [|x l IH]; simpl; [done|]. by rewrite Z.eqb_refl. Qed.

Lemma length_blockStats_alter (f : BlockStats -> BlockStats) (i : Z)
  (st : State) :
  length (blockStats (mapBlock i f st)) = length (blockStats st).
Proof. apply length_alter. Qed.

Lemma Disk_eta (d : Disk) : d = mkDisk (contents d) (offset d).
Proof. by destruct d. Qed.

Lemma splice_lookup (C w : list Z) (o x : nat) :
  (o <= length C)%nat ->
  (take o C ++ w ++ drop (o + length w) C) !! x
  = if decide (x < o)%nat then C !! x
    else if decide (x < o + length w)%nat then w !! (x - o)%nat
    else C !! x.
Proof.
  intros Ho. assert (Ht : length (take o C) = o) by (rewrite length_take; lia).
  destruct (decide (x < o)%nat).
  - rewrite lookup_app_l by lia. rewrite lookup_take; case_decide; [done|lia].
  - rewrite lookup_app_r by lia. rewrite Ht.
    destruct (decide (x < o + length w)%nat).
    + rewrite lookup_app_l by lia. done.
    + rewrite lookup_app_r by lia. rewrite lookup_drop. f_equal. lia.
Qed.

Section Image.

Variables (bs sz : Z) (pats : list Z) (p : Z).
Variables (clock : Disk -> Q) (outfile : Disk -> bool -> Z -> bool).
Hypotheses (Hbs8 : 8 <= bs) (Hsz : 0 < sz) (Hnw : sz + bs <= W64).

Let c := mkConfig bs sz (wrap (sz + bs - 1) / bs) pats.

Lemma blockImage_length (i : Z) : length (blockImage bs p i) = Z.to_nat bs.
Proof.
  unfold blockImage. rewrite length_app, length_map, repeat_length.
  rewrite length_seqZ. simpl. lia.
Qed.

Lemma blockImage_tail (i : Z) :
  drop 8 (blockImage bs p i) = repeat p (Z.to_nat bs - 8).
Proof. unfold blockImage. by rewrite drop_app_length' by reflexivity. Qed.

Lemma initBlock_image (buffer : list Z) (i : Z) :
  length buffer = Z.to_nat bs ->
  drop 8 buffer = repeat p (Z.to_nat bs - 8) ->
  initBlock buffer i p = blockImage bs p i.
Proof.
  intros Hl Hd. rewrite initBlock_shape by lia. by rewrite Hd.
Qed.

Lemma imageByte_block (k j : Z) :
  0 <= j < bs ->
  imageByte bs p (k * bs + j) = nth (Z.to_nat j) (blockImage bs p k) 0.
Proof.
  intros Hj. unfold imageByte.
  replace (k * bs + j) with (j + k * bs) by ring.
  rewrite Z.div_add, Z.mod_add by lia.
  rewrite (Z.div_small j bs), (Z.mod_small j bs) by lia. reflexivity.
Qed.

Lemma numBlocks_bounds :
  0 < numBlocks c /\ (numBlocks c - 1) * bs < sz <= numBlocks c * bs.
Proof.
  pose proof (numBlocks_ceil bs sz pats ltac:(lia) Hsz Hnw) as Hn.
  fold c in Hn. rewrite Hn.
  pose proof (Z.div_mod sz bs ltac:(lia)) as Hdm.
  pose proof (Z.mod_pos_bound sz bs ltac:(lia)) as Hm.
  destruct (Z.eqb_spec (sz mod bs) 0); nia.
Qed.

Lemma accessSize_min (k : Z) :
  0 <= k < numBlocks c -> accessSize c k = Z.min bs (sz - k * bs).
Proof.
  intros Hk. pose proof numBlocks_bounds as Hb.
  destruct (Z.le_gt_cases ((k + 1) * bs) sz) as [Hle|Hgt].
  - rewrite (accessSize_full bs sz pats) by lia. lia.
  - rewrite (accessSize_partial bs sz pats) by nia.
    assert (Hq : sz / bs = k).
    { symmetry. apply Z.div_unique with (sz - k * bs); nia. }
    rewrite Z.mod_eq by lia. rewrite Hq. lia.
Qed.

(** One block of a write pass on the healthy disk. *)
Lemma writeBlock_healthy (s : Loop Disk) (k : Z) :
  0 <= k < numBlocks c ->
  length (contents (lp_dev s)) = Z.to_nat sz ->
  offset (lp_dev s) = k * bs ->
  length (lp_buffer s) = Z.to_nat bs ->
  drop 8 (lp_buffer s) = repeat p (Z.to_nat bs - 8) ->
  let s' := writeBlock Disk (diskIO clock outfile) c p s k in
  contents (lp_dev s')
    = take (Z.to_nat (k * bs)) (contents (lp_dev s))
      ++ take (Z.to_nat (accessSize c k)) (blockImage bs p k)
      ++ drop (Z.to_nat (k * bs + accessSize c k)) (contents (lp_dev s)) /\
  offset (lp_dev s') = k * bs + accessSize c k /\
  lp_buffer s' = blockImage bs p k /\
  errors (totalWrite (lp_st s')) = errors (totalWrite (lp_st s)) /\
  totalRead (lp_st s') = totalRead (lp_st s) /\
  (progressPatternOob c (lp_st s) = false -> ub (lp_st s') = ub (lp_st s)) /\
  length (blockStats (lp_st s')) = length (blockStats (lp_st s)).
Proof.
  intros Hk Hlen Hoff Hbl Hbd. pose proof numBlocks_bounds as Hb.
  pose proof (accessSize_min k Hk) as Ha.
  unfold writeBlock. rewrite (initBlock_image _ k Hbl Hbd).
  assert (Hoob : initBlock_oob (lp_buffer s) = false).
  { unfold initBlock_oob. rewrite Hbl. apply Nat.ltb_ge. lia. }
  rewrite Hoob. destruct s as [st [C off] buf ex lt]. simpl in *. subst off.
  unfold diskWrite. simpl.
  set (a := accessSize c k) in *.
  assert (Hw : take (length C - Z.to_nat (k * bs))
                 (take (Z.to_nat a) (blockImage bs p k))
               = take (Z.to_nat a) (blockImage bs p k)).
  { apply take_ge. rewrite length_take, blockImage_length. lia. }
  rewrite Hw. rewrite length_take, blockImage_length.
  replace (Z.to_nat a `min` Z.to_nat bs)%nat with (Z.to_nat a) by lia.
  destruct (Z.ltb_spec (Z.of_nat (Z.to_nat a)) 0); [lia|]. simpl.
  progress_step_as bp Hbp. simpl.
  assert (Hbf : progressPatternOob c st = false -> bp = false).
  { intros Hpo. destruct bp; [|done]. rewrite <- Hpo, <- (Hbp eq_refl).
    reflexivity. }
  rewrite length_alter.
  assert (Hkb : 0 <= k * bs < sz) by nia.
  replace (Z.to_nat (k * bs) + Z.to_nat a)%nat with (Z.to_nat (k * bs + a))
    by lia.
  repeat split; try lia.
  intros Hpo. rewrite (Hbf Hpo). by rewrite !orb_false_r.
Qed.

Lemma writeLoop_healthy (s0 : Loop Disk) (orig : list Z) :
  contents (lp_dev s0) = orig -> length orig = Z.to_nat sz ->
  offset (lp_dev s0) = 0 -> lp_buffer s0 = repeat p (Z.to_nat bs) ->
  let s := foldl (writeBlock Disk (diskIO clock outfile) c p) s0 (seqZ 0 (numBlocks c)) in
  contents (lp_dev s) = map (imageByte bs p) (seqZ 0 sz) /\
  offset (lp_dev s) = sz /\
  errors (totalWrite (lp_st s)) = errors (totalWrite (lp_st s0)) /\
  totalRead (lp_st s) = totalRead (lp_st s0) /\
  (progressPatternOob c (lp_st s0) = false -> ub (lp_st s) = ub (lp_st s0)) /\
  length (blockStats (lp_st s)) = length (blockStats (lp_st s0)).
Proof.
  intros Hc0 Hlen Ho0 Hb0. pose proof numBlocks_bounds as Hb.
  set (n := numBlocks c) in *.
  assert (Hk : forall k : nat, (k <= Z.to_nat n)%nat ->
    let s := foldl (writeBlock Disk (diskIO clock outfile) c p) s0 (seqZ 0 (Z.of_nat k)) in
    length (contents (lp_dev s)) = Z.to_nat sz /\
    offset (lp_dev s) = Z.min (Z.of_nat k * bs) sz /\
    (forall x : nat, contents (lp_dev s) !! x
       = if decide (Z.of_nat x < Z.min (Z.of_nat k * bs) sz)
         then Some (imageByte bs p (Z.of_nat x)) else orig !! x) /\
    length (lp_buffer s) = Z.to_nat bs /\
    drop 8 (lp_buffer s) = repeat p (Z.to_nat bs - 8) /\
    errors (totalWrite (lp_st s)) = errors (totalWrite (lp_st s0)) /\
    totalRead (lp_st s) = totalRead (lp_st s0) /\
    (progressPatternOob c (lp_st s0) = false -> ub (lp_st s) = ub (lp_st s0)) /\
    length (blockStats (lp_st s)) = length (blockStats (lp_st s0))).
  { induction k as [|k IH]; intros Hle s.
    - subst s. simpl. rewrite Hc0, Ho0, Hb0, repeat_length, drop_repeat.
      split; [done|]. split; [lia|]. split.
      + intros x. case_decide; [lia|done].
      + repeat split.
    - destruct IH as (Hl & Ho & Hx & Hbl & Hbd & He & Hr & Hu & Hs); [lia|].
      subst s. rewrite seqZ_S, foldl_app. simpl foldl. rewrite Z.add_0_l.
      set (s := foldl (writeBlock Disk (diskIO clock outfile) c p) s0 (seqZ 0 (Z.of_nat k)))
        in *.
      assert (Hkn : 0 <= Z.of_nat k < n) by lia.
      assert (Hkb : 0 <= Z.of_nat k * bs < sz) by nia.
      rewrite Z.min_l in Ho, Hx by lia.
      assert (Hsk : Z.of_nat (S k) * bs = Z.of_nat k * bs + bs) by lia.
      rewrite Hsk.
      destruct (writeBlock_healthy s (Z.of_nat k) Hkn Hl Ho Hbl Hbd)
        as (Hc' & Ho' & Hb' & He' & Hr' & Hu' & Hs').
      pose proof (accessSize_min (Z.of_nat k) Hkn) as Ha.
      set (a := accessSize c (Z.of_nat k)) in *.
      set (s' := writeBlock Disk (diskIO clock outfile) c p s (Z.of_nat k)) in *.
      assert (Hlw : length (take (Z.to_nat a) (blockImage bs p (Z.of_nat k)))
                    = Z.to_nat a)
        by (rewrite length_take, blockImage_length; lia).
      set (o := Z.of_nat k * bs) in *.
      assert (Hoeq : o = Z.of_nat k * bs) by reflexivity. clearbody o a.
      assert (Hsplit : contents (lp_dev s')
        = take (Z.to_nat o) (contents (lp_dev s))
          ++ take (Z.to_nat a) (blockImage bs p (Z.of_nat k))
          ++ drop (Z.to_nat o
                   + length (take (Z.to_nat a) (blockImage bs p (Z.of_nat k))))
               (contents (lp_dev s))).
      { rewrite Hc', Hlw. do 3 f_equal. lia. }
      split; [|split; [|split]].
      + rewrite Hsplit, !length_app, length_drop, Hlw, length_take, Hl. lia.
      + rewrite Ho'. lia.
      + intros x. rewrite Hsplit, splice_lookup by lia. rewrite Hlw.
        destruct (decide (x < Z.to_nat o)%nat).
        * rewrite Hx. repeat case_decide; try lia; done.
        * destruct (decide (x < Z.to_nat o + Z.to_nat a)%nat).
          -- rewrite lookup_take.
             rewrite (lookup_nth_Some _ _ 0) by (rewrite blockImage_length; lia).
             repeat case_decide; try lia. f_equal.
             replace (Z.of_nat x)
               with (Z.of_nat k * bs + Z.of_nat (x - Z.to_nat o)) by lia.
             rewrite imageByte_block by lia. f_equal. lia.
          -- rewrite Hx. repeat case_decide; try lia; done.
      + rewrite Hb', He', Hr', Hs', blockImage_length, blockImage_tail.
        repeat split; try done.
        intros Hpo. rewrite Hu'; [by apply Hu|].
        rewrite <- Hpo. apply progressPatternOob_frame. subst s.
        apply foldl_frame. intros. apply writeBlock_frame. }
  destruct (Hk (Z.to_nat n) ltac:(lia))
    as (Hl & Ho & Hx & _ & _ & He & Hr & Hu & Hs).
  rewrite Z2Nat.id in Hl, Ho, Hx, He, Hr, Hu, Hs by lia.
  rewrite Z.min_r in Ho, Hx by lia. cbv zeta.
  repeat split; try done.
  apply list_eq. intros x. rewrite Hx, list_lookup_fmap.
  case_decide.
  - rewrite lookup_seqZ_lt by lia. reflexivity.
  - rewrite lookup_seqZ_ge by lia. simpl.
    apply lookup_ge_None_2. lia.
Qed.

Lemma numBlocks_whole : sz mod bs = 0 -> sz = numBlocks c * bs.
Proof.
  intros Hr. pose proof (numBlocks_ceil bs sz pats ltac:(lia) Hsz Hnw) as Hn.
  fold c in Hn. rewrite Hr, Z.eqb_refl in Hn. cbv iota in Hn.
  pose proof (Z.div_mod sz bs ltac:(lia)) as Hdm. rewrite Hr, <- Hn in Hdm.
  lia.
Qed.

Lemma read_image_block (C : list Z) (k : Z) :
  sz mod bs = 0 -> 0 <= k < numBlocks c ->
  C = map (imageByte bs p) (seqZ 0 sz) ->
  take (Z.to_nat bs) (drop (Z.to_nat (k * bs)) C) = blockImage bs p k.
Proof.
  intros Hr Hk ->. pose proof numBlocks_bounds as Hb.
  pose proof (numBlocks_whole Hr) as Hdm.
  assert (Hkb : 0 <= k * bs /\ (k + 1) * bs <= sz) by nia.
  apply list_eq. intros j. rewrite lookup_take, lookup_drop.
  case_decide.
  - rewrite list_lookup_fmap, lookup_seqZ_lt by lia. simpl.
    rewrite (lookup_nth_Some _ _ 0) by (rewrite blockImage_length; lia).
    f_equal. replace (Z.of_nat (Z.to_nat (k * bs) + j)) with
      (k * bs + Z.of_nat j) by lia.
    rewrite Z.add_0_l, imageByte_block by lia. by rewrite Nat2Z.id.
  - symmetry. apply lookup_ge_None_2. rewrite blockImage_length. lia.
Qed.

(** One block of a verifying read pass on the healthy disk holding the
    image of the pattern, with whole blocks. *)
Lemma readBlock_healthy (s : Loop Disk) (k : Z) :
  sz mod bs = 0 -> 0 <= k < numBlocks c ->
  contents (lp_dev s) = map (imageByte bs p) (seqZ 0 sz) ->
  offset (lp_dev s) = k * bs ->
  length (lp_buffer s) = Z.to_nat bs ->
  length (lp_expected s) = Z.to_nat bs ->
  drop 8 (lp_expected s) = repeat p (Z.to_nat bs - 8) ->
  let s' := readBlock Disk (diskIO clock outfile) c (Some p) s k in
  contents (lp_dev s') = contents (lp_dev s) /\
  offset (lp_dev s') = k * bs + bs /\
  length (lp_buffer s') = Z.to_nat bs /\
  lp_expected s' = blockImage bs p k /\
  errors (totalRead (lp_st s')) = errors (totalRead (lp_st s)) /\
  totalWrite (lp_st s') = totalWrite (lp_st s) /\
  (progressPatternOob c (lp_st s) = false -> ub (lp_st s') = ub (lp_st s)) /\
  length (blockStats (lp_st s')) = length (blockStats (lp_st s)).
Proof.
  intros Hr Hk Hc Ho Hbl Hel Hed. pose proof numBlocks_bounds as Hb.
  pose proof (numBlocks_whole Hr) as Hdm.
  assert (Hkb : 0 <= k * bs /\ (k + 1) * bs <= sz) by nia.
  assert (Ha : accessSize c k = bs) by (apply (accessSize_full bs sz pats); lia).
  pose proof (read_image_block (contents (lp_dev s)) k Hr Hk Hc) as Himg.
  unfold readBlock. cbn [deref]. rewrite (initBlock_image _ k Hel Hed).
  assert (Hoob : initBlock_oob (lp_expected s) = false).
  { unfold initBlock_oob. rewrite Hel. apply Nat.ltb_ge. lia. }
  rewrite Hoob, Ha. destruct s as [st [C off] buf ex lt]. simpl in *. subst off.
  unfold diskRead. simpl. rewrite Himg, blockImage_length.
  destruct (Z.ltb_spec (Z.of_nat (Z.to_nat bs)) 0); [lia|].
  rewrite Nat2Z.id, take_ge by (rewrite blockImage_length; lia).
  unfold storeBytes. rewrite blockImage_length, drop_ge, app_nil_r by lia.
  rewrite firstMismatch_refl. cbn -[printProgress].
  progress_step_as bp Hbp. cbn.
  assert (Hbf : progressPatternOob c st = false -> bp = false).
  { intros Hpo. destruct bp; [|done]. rewrite <- Hpo, <- (Hbp eq_refl).
    reflexivity. }
  rewrite length_alter, blockImage_length.
  repeat split; try lia.
  intros Hpo. rewrite (Hbf Hpo). by rewrite !orb_false_r.
Qed.

Lemma readLoop_healthy (s0 : Loop Disk) :
  sz mod bs = 0 ->
  contents (lp_dev s0) = map (imageByte bs p) (seqZ 0 sz) ->
  offset (lp_dev s0) = 0 ->
  length (lp_buffer s0) = Z.to_nat bs ->
  lp_expected s0 = repeat p (Z.to_nat bs) ->
  let s := foldl (readBlock Disk (diskIO clock outfile) c (Some p)) s0
                 (seqZ 0 (numBlocks c)) in
  contents (lp_dev s) = contents (lp_dev s0) /\
  offset (lp_dev s) = sz /\
  errors (totalRead (lp_st s)) = errors (totalRead (lp_st s0)) /\
  totalWrite (lp_st s) = totalWrite (lp_st s0) /\
  (progressPatternOob c (lp_st s0) = false -> ub (lp_st s) = ub (lp_st s0)) /\
  length (blockStats (lp_st s)) = length (blockStats (lp_st s0)).
Proof.
  intros Hr Hc0 Ho0 Hb0 He0. pose proof numBlocks_bounds as Hb.
  pose proof (numBlocks_whole Hr) as Hdm.
  set (n := numBlocks c) in *.
  assert (Hk : forall k : nat, (k <= Z.to_nat n)%nat ->
    let s := foldl (readBlock Disk (diskIO clock outfile) c (Some p)) s0
                   (seqZ 0 (Z.of_nat k)) in
    contents (lp_dev s) = contents (lp_dev s0) /\
    offset (lp_dev s) = Z.of_nat k * bs /\
    length (lp_buffer s) = Z.to_nat bs /\
    length (lp_expected s) = Z.to_nat bs /\
    drop 8 (lp_expected s) = repeat p (Z.to_nat bs - 8) /\
    errors (totalRead (lp_st s)) = errors (totalRead (lp_st s0)) /\
    totalWrite (lp_st s) = totalWrite (lp_st s0) /\
    (progressPatternOob c (lp_st s0) = false -> ub (lp_st s) = ub (lp_st s0)) /\
    length (blockStats (lp_st s)) = length (blockStats (lp_st s0))).
  { induction k as [|k IH]; intros Hle s.
    - subst s. simpl. rewrite Ho0, He0, repeat_length, drop_repeat.
      repeat split; done.
    - destruct IH as (Hc & Ho & Hbl & Hel & Hed & He & Hw & Hu & Hs); [lia|].
      subst s. rewrite seqZ_S, foldl_app. simpl foldl. rewrite Z.add_0_l.
      set (s := foldl (readBlock Disk (diskIO clock outfile) c (Some p)) s0
                      (seqZ 0 (Z.of_nat k))) in *.
      assert (Hkn : 0 <= Z.of_nat k < n) by lia.
      rewrite <- Hc in Hc0.
      destruct (readBlock_healthy s (Z.of_nat k) Hr Hkn Hc0 Ho Hbl Hel Hed)
        as (Hc' & Ho' & Hb' & He' & Hr' & Hw' & Hu' & Hs').
      rewrite Hc', Ho', Hb', He', Hr', Hw', Hs', blockImage_length,
        blockImage_tail.
      repeat split; try done; [lia|].
      intros Hpo. rewrite Hu'; [by apply Hu|].
      rewrite <- Hpo. apply progressPatternOob_frame. subst s.
      apply foldl_frame. intros. apply readBlock_frame. }
  destruct (Hk (Z.to_nat n) ltac:(lia))
    as (Hc & Ho & _ & _ & _ & He & Hw & Hu & Hs).
  rewrite Z2Nat.id in Hc, Ho, He, Hw, Hu, Hs by lia.
  cbv zeta. repeat split; try done. lia.
Qed.

Lemma writePass_healthy (st : State) (d : Disk) :
  length (contents d) = Z.to_nat sz ->
  (forall d', outfile d' false (passIndex st) = true) ->
  exists st', writePass Disk (diskIO clock outfile) c p st d
    = inr (st', mkDisk (map (imageByte bs p) (seqZ 0 sz)) sz) /\
    errors (totalWrite st') = errors (totalWrite st) /\
    totalRead st' = totalRead st /\
    (progressPatternOob c st = false -> ub st' = ub st).
Proof.
  intros Hlen Hout. pose proof numBlocks_bounds as Hb.
  unfold writePass, passEnd, writeStart.
  cbn [io_open io_close io_outfile io_time diskIO].
  match goal with |- context [foldl ?f ?s ?l] =>
    destruct (writeLoop_healthy s (contents d) eq_refl Hlen eq_refl eq_refl)
      as (Hc & Ho & He & Hr & Hu & Hs);
    pose proof (foldl_frame Disk f l s (writeBlock_frame Disk _ c p)) as Hfr;
    set (sf := foldl f s l) in *
  end.
  unfold frame in Hfr. injection Hfr as Hpi _ _.
  cbn [lp_st setBlockStats passIndex] in Hpi. rewrite Hpi, Hout.
  eexists. split; [rewrite (Disk_eta (lp_dev sf)), Hc, Ho; reflexivity|].
  cbn [nextPass printPassStats totalWrite totalRead ub].
  rewrite He, Hr. split; [reflexivity|]. split; [reflexivity|].
  intros Hpo. rewrite Hu by exact Hpo.
  rewrite (Permutation_length (sortByRate_Permutation _)), Hs.
  cbn [lp_st setBlockStats blockStats ub].
  rewrite repeat_length.
  destruct (Nat.eqb_spec (Z.to_nat (numBlocks c)) 0); [lia|].
  by rewrite orb_false_r.
Qed.

Lemma readPass_healthy (st : State) (d : Disk) :
  sz mod bs = 0 ->
  contents d = map (imageByte bs p) (seqZ 0 sz) ->
  (forall d', outfile d' true (passIndex st) = true) ->
  exists st', readPass Disk (diskIO clock outfile) c (Some p) st d
    = inr (st', mkDisk (contents d) sz) /\
    errors (totalRead st') = errors (totalRead st) /\
    totalWrite st' = totalWrite st /\
    (progressPatternOob c st = false -> ub st' = ub st).
Proof.
  intros Hr Hc0 Hout. pose proof numBlocks_bounds as Hb.
  unfold readPass, passEnd, readStart.
  cbn [io_open io_close io_outfile io_time diskIO deref].
  match goal with |- context [foldl ?f ?s ?l] =>
    destruct (readLoop_healthy s Hr Hc0 eq_refl ltac:(apply repeat_length)
                eq_refl) as (Hc & Ho & He & Hw & Hu & Hs);
    pose proof (foldl_frame Disk f l s (readBlock_frame Disk _ c (Some p)))
      as Hfr;
    set (sf := foldl f s l) in *
  end.
  unfold frame in Hfr. injection Hfr as Hpi _ _.
  cbn [lp_st setBlockStats flagUb passIndex] in Hpi. rewrite Hpi, Hout.
  eexists. split; [rewrite (Disk_eta (lp_dev sf)), Hc, Ho; reflexivity|].
  cbn [nextPass printPassStats totalWrite totalRead ub].
  rewrite He, Hw. split; [reflexivity|]. split; [reflexivity|].
  intros Hpo. rewrite Hu by exact Hpo.
  rewrite (Permutation_length (sortByRate_Permutation _)), Hs.
  cbn [lp_st setBlockStats blockStats ub flagUb].
  rewrite repeat_length.
  destruct (Nat.eqb_spec (Z.to_nat (numBlocks c)) 0); [lia|].
  by rewrite !orb_false_r.
Qed.

End Image.

(** A write pass ([writePass], lines 142-188) on a healthy device of
    [sizeBytes] bytes, with any clock, on which the CSV export of the pass
    can create its file, leaves on the device, at each byte [x], byte
    [x % blockSize] of the block [x / blockSize] as built by [initBlock]:
    the 8 bytes [pattern ^ byte_k(blockIndex)] followed by the pattern,
    the last partial block cut at the end of the device. It counts no
    write error and leaves the read total as it was; it executes no
    undefined behaviour unless its progress line reads
    [patterns[passIndex]] out of range (line 203). *)
Theorem writePass_device_image (clock : Disk -> Q)
  (outfile : Disk -> bool -> Z -> bool) (bs sz : Z) (pats : list Z)
  (c : Config) (p : Z) (st : State) (d : Disk) :
  BlockChecker bs sz pats = inr c -> 8 <= bs -> 0 <= sz -> sz + bs <= W64 ->
  length (contents d) = Z.to_nat sz ->
  (forall d', outfile d' false (passIndex st) = true) ->
  exists st', writePass Disk (diskIO clock outfile) c p st d
    = inr (st', mkDisk (diskImage c p) sz) /\
    errors (totalWrite st') = errors (totalWrite st) /\
    totalRead st' = totalRead st /\
    (progressPatternOob c st = false -> ub st' = ub st).
Proof.
  intros Hc Hbs Hsz Hnw Hlen Hout.
  apply BlockChecker_inr in Hc as (_ & Hsz0 & ->).
  exact (writePass_healthy bs sz pats p clock outfile Hbs ltac:(lia) Hnw
           st d Hlen Hout).
Qed.

(** The write/read mode ([checkWriteRead], lines 55-65) on a healthy
    device, with any clock and a file system on which the CSV exports can
    create their files, whose size is a multiple of a block size of at
    least 8 bytes: every pattern is written and read back without any
    read or write error, [printResult] says "OK", and the device is left
    holding the image of the last pattern (or its old contents when there
    is no pattern). *)
Theorem roundtrip_whole_blocks (clock : Disk -> Q) (bs sz : Z)
  (pats orig : list Z) (off : Z) :
  8 <= bs -> 0 < sz -> sz + bs <= W64 -> sz mod bs = 0 ->
  length orig = Z.to_nat sz ->
  exists st d', scanbadblocks (diskIO clock (fun _ _ _ => true)) bs sz pats
                  true (mkDisk orig off) = inr (st, d') /\
    errors (totalRead st) = 0 /\ errors (totalWrite st) = 0 /\
    snd (printResult st) = VerdictOK /\
    contents d' = from_option (fun q => map (imageByte bs q) (seqZ 0 sz))
                              orig (last pats).
Proof.
  intros Hbs Hsz Hnw Hr Hlen.
  unfold scanbadblocks, BlockChecker.
  destruct (Z.eqb_spec bs 0); [lia|]. destruct (Z.eqb_spec sz 0); [lia|].
  assert (Hloop : forall pats' st d,
    length (contents d) = Z.to_nat sz ->
    exists st' d', writeReadLoop Disk (diskIO clock (fun _ _ _ => true))
      (mkConfig bs sz (wrap (sz + bs - 1) / bs) pats) pats' st d
      = inr (st', d') /\
      errors (totalRead st') = errors (totalRead st) /\
      errors (totalWrite st') = errors (totalWrite st) /\
      contents d' = from_option (fun q => map (imageByte bs q) (seqZ 0 sz))
                                (contents d) (last pats')).
  { induction pats' as [|q pats' IH]; intros st d Hl.
    - exists st, d. repeat split.
    - destruct (writePass_healthy bs sz pats q clock (fun _ _ _ => true)
                  Hbs Hsz Hnw st d Hl (fun _ => eq_refl))
        as (st1 & Hw & Hw1 & Hw2 & _).
      destruct (readPass_healthy bs sz pats q clock (fun _ _ _ => true)
                  Hbs Hsz Hnw st1
                  (mkDisk (map (imageByte bs q) (seqZ 0 sz)) sz) Hr eq_refl
                  (fun _ => eq_refl))
        as (st2 & Hd & Hd1 & Hd2 & _).
      destruct (IH st2 (mkDisk (map (imageByte bs q) (seqZ 0 sz)) sz))
        as (st3 & d3 & Hl3 & H1 & H2 & H4).
      { simpl. rewrite length_map, length_seqZ. done. }
      exists st3, d3. cbn [writeReadLoop]. rewrite Hw, Hd.
      split; [exact Hl3|]. rewrite H1, H2, Hd1, Hd2, Hw1, Hw2.
      repeat split. rewrite H4. simpl.
      destruct pats' as [|q' pats'']; [reflexivity|].
      rewrite last_cons_cons.
      destruct (last (q' :: pats'')) eqn:E; [reflexivity|].
      apply last_None in E. discriminate. }
  unfold checkWriteRead. cbn [patterns].
  destruct (Hloop pats (setNumPasses (Z.of_nat (length pats) * 2)
              (initState (mkConfig bs sz (wrap (sz + bs - 1) / bs) pats)))
              (mkDisk orig off) Hlen)
    as (st & d' & Hl & H1 & H2 & H4).
  exists st, d'. rewrite Hl. split; [reflexivity|].
  rewrite H1, H2, H4. simpl. repeat split.
  unfold printResult. rewrite H1, H2. reflexivity.
Qed.

(** ** Slow-block warnings *)

Lemma getRateMB_nonneg (b : BlockStats) : 0 <= bytes b -> (0 <= getRateMB b)%Q.
Proof.
  intros Hb. unfold getRateMB. destruct (Qlt_le_dec 0 (time b)) as [Ht|_];
    [|apply Qle_refl].
  unfold Qdiv. apply Qmult_le_0_compat; [apply Qmult_le_0_compat|].
  - change 0%Q with (inject_Z 0). rewrite <- Zle_Qle. exact Hb.
  - apply Qinv_le_0_compat, Qlt_le_weak, Ht.
  - apply Qinv_le_0_compat. unfold MB, Qle. simpl. lia.
Qed.

Lemma Q_scale_le (m : Q) (p1 p2 : Z) :
  (0 <= m)%Q -> 0 <= p2 <= p1 ->
  (m * inject_Z p2 / 100 <= m * inject_Z p1 / 100)%Q.
Proof.
  intros Hm Hp. unfold Qdiv. apply Qmult_le_compat_r;
    [|unfold Qle; simpl; lia].
  rewrite (Qmult_comm m (inject_Z p2)), (Qmult_comm m (inject_Z p1)).
  apply Qmult_le_compat_r; [|exact Hm].
  rewrite <- Zle_Qle. lia.
Qed.

Lemma countBelow_stop (s : list BlockStats) (t : Q) (k : nat) (b : BlockStats) :
  s !! k = Some b -> (t <= getRateMB b)%Q -> (countBelow s t <= k)%nat.
Proof.
  revert k. induction s as [|x s IH]; intros k Hk Ht; [discriminate|].
  simpl. destruct (Qlt_le_dec (getRateMB x) t) as [Hlt|_]; [|lia].
  destruct k as [|k].
  - injection Hk as ->. exfalso. exact (Qlt_not_le _ _ Hlt Ht).
  - simpl in Hk. specialize (IH k Hk Ht). lia.
Qed.

Lemma countBelow_mono (s : list BlockStats) (t1 t2 : Q) :
  (t1 <= t2)%Q -> (countBelow s t1 <= countBelow s t2)%nat.
Proof.
  intros Ht. induction s as [|x s IH]; simpl; [lia|].
  destruct (Qlt_le_dec (getRateMB x) t1) as [H1|_];
    destruct (Qlt_le_dec (getRateMB x) t2) as [H2|H2]; try lia.
  exfalso. apply (Qlt_not_le _ _ H1). eapply Qle_trans; [exact Ht|exact H2].
Qed.

Lemma Forall_nth_default {A} (P : A -> Prop) (l : list A) (d : A) (k : nat) :
  Forall P l -> P d -> P (nth k l d).
Proof.
  intros Hl Hd. revert k. induction Hl as [|x l Hx Hl IH]; intros [|k];
    simpl; auto.
Qed.

(** The warnings of a pass (lines 282-290), for blocks whose byte counters
    are non-negative (as [size_t] counters are): each reported count is
    positive and at most half the number of blocks (the median block and
    the faster ones are never counted), and the counts do not grow from
    one warning to the next (50%, 20%, 10%, 5% of the median). *)
Theorem printPassStats_warnings (c : Config) (read : bool) (st : State) :
  Forall (fun b => 0 <= bytes b) (blockStats st) ->
  exists r, reports (printPassStats c read st) = reports st ++ [r] /\
    Forall (fun w => 0 < snd w /\ snd w <= length (blockStats st) / 2)%nat
           (rp_warnings r) /\
    Sorted (fun w1 w2 => snd w2 <= snd w1)%nat (rp_warnings r).
Proof.
  intros Hb. eexists. split; [reflexivity|].
  unfold passStats. cbn [rp_warnings].
  set (s := sortByRate (blockStats st)).
  assert (Hlen : length s = length (blockStats st))
    by apply Permutation_length, sortByRate_Permutation.
  assert (Hs : Forall (fun b => 0 <= bytes b) s)
    by (unfold s; rewrite sortByRate_Permutation; exact Hb).
  set (med := getRateMB (nth (length s / 2) s zeroStats)).
  assert (Hmed : (0 <= med)%Q).
  { apply getRateMB_nonneg.
    apply (Forall_nth_default (fun b => 0 <= bytes b)); [exact Hs|simpl; lia]. }
  assert (Hhalf : forall pct, 0 <= pct <= 100 ->
            (countBelow s (med * inject_Z pct / 100) <= length s / 2)%nat).
  { intros pct Hp. destruct (decide (length s = 0%nat)) as [H0|H0].
    { rewrite (nil_length_inv s H0). simpl. lia. }
    assert (Hlt : (length s / 2 < length s)%nat) by (apply Nat.div_lt; lia).
    destruct (lookup_lt_is_Some_2 s (length s / 2) Hlt) as [b Hbk].
    apply (countBelow_stop _ _ _ b Hbk).
    assert (Hmb : med = getRateMB b)
      by (unfold med; f_equal; by apply nth_lookup_Some).
    rewrite <- Hmb.
    eapply Qle_trans; [apply (Q_scale_le med 100 pct Hmed Hp)|].
    destruct med as [a d]. unfold Qdiv, Qmult, Qinv, inject_Z, Qle. simpl.
    nia. }
  pose proof (Hhalf 50 ltac:(lia)) as H50.
  pose proof (Hhalf 20 ltac:(lia)) as H20.
  pose proof (Hhalf 10 ltac:(lia)) as H10.
  pose proof (Hhalf 5 ltac:(lia)) as H5.
  pose proof (countBelow_mono s _ _ (Q_scale_le med 50 20 Hmed ltac:(lia)))
    as M1.
  pose proof (countBelow_mono s _ _ (Q_scale_le med 20 10 Hmed ltac:(lia)))
    as M2.
  pose proof (countBelow_mono s _ _ (Q_scale_le med 10 5 Hmed ltac:(lia)))
    as M3.
  rewrite Hlen in H50, H20, H10, H5.
  unfold percentiles. simpl flat_map.
  set (c50 := countBelow s (med * inject_Z 50 / 100)) in *.
  set (c20 := countBelow s (med * inject_Z 20 / 100)) in *.
  set (c10 := countBelow s (med * inject_Z 10 / 100)) in *.
  set (c5 := countBelow s (med * inject_Z 5 / 100)) in *.
  clearbody c50 c20 c10 c5. clear Hhalf.
  generalize dependent (length (blockStats st) / 2)%nat. intros h ? ? ? ?.
  destruct (Nat.eqb_spec c50 0), (Nat.eqb_spec c20 0),
    (Nat.eqb_spec c10 0), (Nat.eqb_spec c5 0); cbn [app];
    (split; [repeat (apply List.Forall_cons; [cbn [snd]; lia|]);
             apply List.Forall_nil|]);
    repeat (apply Sorted_cons; [|first [apply HdRel_nil |
      apply HdRel_cons; cbn [snd]; lia]]); apply Sorted_nil.
Qed.

Lemma progress_percent_bounds_witness :
  (0 <= pr_percent (progressValues (mkConfig 4 10 3 [0%Z])
          (setNumPasses 1 (initState (mkConfig 4 10 3 [0%Z]))) 1) < 100)%Q.
Proof.
  apply progress_percent_bounds; simpl; [lia|lia|lia|left; reflexivity].
Defined.

Lemma initBlock_header_only_witness :
  length (initBlock (repeat 0 10) 1 85) = length (repeat 0 10) /\
  take 8 (initBlock (repeat 0 10) 1 85)
    = map (patternByte 85 1) (seqZ 0 8) /\
  drop 8 (initBlock (repeat 0 10) 1 85) = drop 8 (repeat 0 10).
Proof. apply initBlock_header_only. simpl. lia. Defined.

Lemma checkWriteRead_passes_witness :
  let c := mkConfig 4 10 3 [0; 255] in
  exists st' d', checkWriteRead Disk healthyIO c (initState c)
      (mkDisk (repeat 0 10) 0) = inr (st', d') /\
    numPasses st' = 2 * Z.of_nat (length (patterns c)) /\
    passIndex st' = passIndex (initState c) + 2 * Z.of_nat (length (patterns c)) /\
    map rp_read (reports st')
      = map rp_read (reports (initState c))
        ++ concat (repeat [false; true] (length (patterns c))) /\
    (tickingReads Disk healthyIO -> patterns c <> [] -> 0 < numBlocks c ->
     0 <= passIndex (initState c) -> ub st' = true).
Proof.
  intros c. apply checkWriteRead_passes.
  - intros d r k. reflexivity.
  - intros d b. simpl. discriminate.
Defined.

Lemma checkReadOnly_pass_witness :
  let c := mkConfig 4 10 3 [0] in
  exists st' d', checkReadOnly Disk healthyIO c (initState c)
      (mkDisk (repeat 0 10) 0) = inr (st', d') /\
    numPasses st' = 1 /\
    passIndex st' = passIndex (initState c) + 1 /\
    map rp_read (reports st') = map rp_read (reports (initState c)) ++ [true] /\
    ub st' = true.
Proof.
  intros c. apply (checkReadOnly_pass _ _ _ _ _ (mkDisk (repeat 0 10) 0)).
  - intros d r k. reflexivity.
  - reflexivity.
Defined.

Lemma open_failure_aborts_witness :
  let io := mkIO Disk (fun _ _ => None) diskRead diskWrite (fun d => d)
                 (fun _ => 0%Q) (fun _ _ _ => true) in
  let c := mkConfig 4 10 3 [0] in
  (forall pattern, readPass Disk io c pattern (initState c)
     (mkDisk (repeat 0 10) 0) = inl DeviceOpenError) /\
  (forall pattern, writePass Disk io c pattern (initState c)
     (mkDisk (repeat 0 10) 0) = inl DeviceOpenError) /\
  checkReadOnly Disk io c (initState c) (mkDisk (repeat 0 10) 0)
    = inl DeviceOpenError /\
  checkWriteRead Disk io c (initState c) (mkDisk (repeat 0 10) 0)
    = match patterns c with
      | [] => inr (setNumPasses 0 (initState c), mkDisk (repeat 0 10) 0)
      | _ => inl DeviceOpenError
      end.
Proof. intros io c. apply open_failure_aborts. intros d b. reflexivity. Defined.

Lemma readPass_never_writes_witness :
  let io2 := mkIO Disk (fun d _ => Some (mkDisk (contents d) 0)) diskRead
                  (fun d _ => (d, -1, 1%Q)) (fun d => d)
                  (fun _ => 0%Q) (fun _ _ _ => true) in
  let c := mkConfig 4 10 3 [0] in
  (forall pattern,
     readPass Disk healthyIO c pattern (initState c) (mkDisk (repeat 0 10) 0)
     = readPass Disk io2 c pattern (initState c) (mkDisk (repeat 0 10) 0)) /\
  checkReadOnly Disk healthyIO c (initState c) (mkDisk (repeat 0 10) 0)
  = checkReadOnly Disk io2 c (initState c) (mkDisk (repeat 0 10) 0).
Proof.
  intros io2 c. apply readPass_never_writes; intros; reflexivity.
Defined.

Lemma pass_error_accounting_witness :
  let c := mkConfig 4 10 3 [0] in
  let st := initState c in
  let d := mkDisk (repeat 0 10) 0 in
  (forall pattern st' d', readPass Disk healthyIO c pattern st d = inr (st', d') ->
     Forall (fun e => e = 0 \/ e = 1) (map errors (blockStats st')) /\
     errors (totalRead st')
       = wrap (errors (totalRead st) + sumZ (map errors (blockStats st'))) /\
     (exists r, reports st' = reports st ++ [r] /\ rp_read r = true /\
        rp_errors r = wrap (int32 (sumZ (map errors (blockStats st')))) /\
        (numBlocks c < 2 ^ 31 ->
           rp_errors r = sumZ (map errors (blockStats st')))) /\
     totalWrite st' = totalWrite st) /\
  (forall pattern st' d', writePass Disk healthyIO c pattern st d = inr (st', d') ->
     Forall (fun e => e = 0 \/ e = 1) (map errors (blockStats st')) /\
     errors (totalWrite st')
       = wrap (errors (totalWrite st) + sumZ (map errors (blockStats st'))) /\
     (exists r, reports st' = reports st ++ [r] /\ rp_read r = false /\
        rp_errors r = wrap (int32 (sumZ (map errors (blockStats st')))) /\
        (numBlocks c < 2 ^ 31 ->
           rp_errors r = sumZ (map errors (blockStats st')))) /\
     totalRead st' = totalRead st).
Proof.
  intros c st d. apply pass_error_accounting; simpl; unfold W64; lia.
Defined.

Lemma readOnly_run_ok_witness :
  exists st d', scanbadblocks healthyIO 4 10 [0] false (mkDisk (repeat 0 10) 0)
                = inr (st, d') /\
    errors (totalRead st) = 0 /\ bytes (totalRead st) = 10 /\
    totalWrite st = zeroStats /\
    snd (printResult st) = VerdictOK /\ (snd (fst (printResult st)) == 0)%Q /\
    ub st = true.
Proof.
  apply readOnly_run_ok; [lia|lia|unfold W64; lia|apply healthyIO_neverFails| |].
  - intros d. simpl. discriminate.
  - intros d r k. reflexivity.
Defined.

Lemma writePass_device_image_witness :
  let c := mkConfig 8 20 3 [85] in
  exists st', writePass Disk (diskIO (fun d => inject_Z (offset d))
                                     (fun _ _ _ => true)) c 85
      (initState c) (mkDisk (repeat 0 20) 0)
    = inr (st', mkDisk (diskImage c 85) 20) /\
    errors (totalWrite st') = errors (totalWrite (initState c)) /\
    totalRead st' = totalRead (initState c) /\
    (progressPatternOob c (initState c) = false -> ub st' = ub (initState c)).
Proof.
  intros c. apply (writePass_device_image _ _ 8 20 [85]);
    [reflexivity|lia|lia|unfold W64; lia|reflexivity|intros; reflexivity].
Defined.

Lemma roundtrip_whole_blocks_witness :
  exists st d', scanbadblocks (diskIO (fun d => inject_Z (offset d))
                                      (fun _ _ _ => true)) 8 16 [85; 170] true
                  (mkDisk (repeat 0 16) 0) = inr (st, d') /\
    errors (totalRead st) = 0 /\ errors (totalWrite st) = 0 /\
    snd (printResult st) = VerdictOK /\
    contents d' = from_option (fun q => map (imageByte 8 q) (seqZ 0 16))
                              (repeat 0 16) (last [85; 170]).
Proof.
  apply roundtrip_whole_blocks;
    [lia|lia|unfold W64; lia|reflexivity|reflexivity].
Defined.

Lemma printPassStats_warnings_witness :
  let st := setBlockStats [mkBlockStats 1 0 4; mkBlockStats 1 0 4096;
                           mkBlockStats 1 0 4096] (initState (mkConfig 4 10 3 [0])) in
  exists r, reports (printPassStats (mkConfig 4 10 3 [0]) true st)
              = reports st ++ [r] /\
    Forall (fun w => 0 < snd w /\ snd w <= length (blockStats st) / 2)%nat
           (rp_warnings r) /\
    Sorted (fun w1 w2 => snd w2 <= snd w1)%nat (rp_warnings r).
Proof.
  apply printPassStats_warnings. simpl.
  repeat (apply List.Forall_cons; [simpl; lia|]). apply List.Forall_nil.
Defined.
